(** * factorio-progress: the progress-bar condition generator, the blueprint
    assembly, the markup renderer and the sampling helper, embedded from
    [progress.py] and [tests/test_progress.py].

    A Python [str] is a sequence of Unicode code points, so a string is a
    list of code points ([N]).  Python exceptions are an explicit error
    type.  The [while True] loop of the colour renderer takes fuel.  The
    generator is a computation that may raise and that records the
    arguments it passes to the colour mapper; what it prints is left out.
    A float is a sign and the exact rational magnitude; each float
    operation is the exact result, rounded by a parameter [fl]. *)

From Stdlib Require Import ZArith NArith QArith List Bool Lia Lqa Ascii String.
Import ListNotations.

Set Implicit Arguments.

(** ** Strings as code-point lists *)

Definition str := list N.

Definition ch (a : ascii) : N := N_of_ascii a.

Definition lit (s : string) : str := List.map N_of_ascii (list_ascii_of_string s).

(** ESC, written ["\033"] in the Python source. *)
Definition ESC : N := 27%N.

(** [s.startswith(p)], and the remainder of [s] after the literal [p]. *)
Fixpoint strip_prefix (p s : str) : option str :=
  match p with
  | [] => Some s
  | c :: p' =>
      match s with
      | [] => None
      | d :: s' => if N.eqb c d then strip_prefix p' s' else None
      end
  end.

Definition starts_with (p s : str) : bool :=
  match strip_prefix p s with Some _ => true | None => false end.

(** [c * n] for a one-character string [c]; a negative count gives [""]. *)
Definition rep (c : N) (n : Z) : str := List.repeat c (Z.to_nat n).

(** Decimal digits of a natural number, as [str(n)] prints them. *)
Fixpoint uint_chars (u : Decimal.uint) : str :=
  match u with
  | Decimal.Nil => []
  | Decimal.D0 u => ch "0" :: uint_chars u
  | Decimal.D1 u => ch "1" :: uint_chars u
  | Decimal.D2 u => ch "2" :: uint_chars u
  | Decimal.D3 u => ch "3" :: uint_chars u
  | Decimal.D4 u => ch "4" :: uint_chars u
  | Decimal.D5 u => ch "5" :: uint_chars u
  | Decimal.D6 u => ch "6" :: uint_chars u
  | Decimal.D7 u => ch "7" :: uint_chars u
  | Decimal.D8 u => ch "8" :: uint_chars u
  | Decimal.D9 u => ch "9" :: uint_chars u
  end.

Definition dec (n : N) : str := uint_chars (N.to_uint n).

(** ** Exceptions *)

Inductive exn : Type := ZeroDivisionError | ValueError | IndexError.

Inductive result (A : Type) : Type :=
| Ok (a : A)
| Raise (e : exn).
Arguments Ok {A} a.
Arguments Raise {A} e.

(** ** The markup renderer ([tests/test_progress.py]) *)

Module Markup.

(** *** Removing matches of a pattern, left to right

    [re.sub(pattern, "", s)] and [s.replace(old, "")] scan [s] from the left;
    where the pattern matches, the match is dropped and the scan resumes
    after it, otherwise one character is kept.  [m s] is the length of the
    match at the head of [s], if any; [skip] counts the characters of the
    current match still to drop. *)
Fixpoint remove_matches (m : str -> option nat) (skip : nat) (s : str) : str :=
  match s with
  | [] => []
  | c :: s' =>
      match skip with
      | S k => remove_matches m k s'
      | O =>
          match m s with
          | Some (S k) => remove_matches m k s'
          | _ => c :: remove_matches m 0 s'
          end
      end
  end.

(** The longest prefix without ["]"], and what follows it. *)
Fixpoint span_not_rbracket (s : str) : str * str :=
  match s with
  | [] => ([], [])
  | c :: s' =>
      if N.eqb c (ch "]") then ([], s)
      else let '(a, b) := span_not_rbracket s' in (c :: a, b)
  end.

(** [FONT_OPEN_RE = \[font=[^\]]+\]] matched at the head of [s]: the greedy
    class takes every character up to the first ["]"], at least one. *)
Definition FONT_OPEN_RE (s : str) : option nat :=
  match strip_prefix (lit "[font=") s with
  | None => None
  | Some r =>
      match span_not_rbracket r with
      | ([], _) => None
      | (_, []) => None
      | (a, _ :: _) => Some (6 + List.length a + 1)%nat
      end
  end.

Definition literal_match (p : str) (s : str) : option nat :=
  if starts_with p s then Some (List.length p) else None.

(** *** The innermost colour tag *)

Definition is_hex (c : N) : bool :=
  ((ch "0" <=? c) && (c <=? ch "9")
   || (ch "A" <=? c) && (c <=? ch "F")
   || (ch "a" <=? c) && (c <=? ch "f"))%N.

(** Exactly [k] characters of [[0-9A-Fa-f]]. *)
Fixpoint take_hex (k : nat) (s : str) : option (str * str) :=
  match k with
  | O => Some ([], s)
  | S k' =>
      match s with
      | [] => None
      | c :: s' =>
          if is_hex c then
            match take_hex k' s' with
            | Some (ds, r) => Some (c :: ds, r)
            | None => None
            end
          else None
      end
  end.

(** [(?P<text>(?:(?!\[color=).)*?)\[/color\]]: the lazy repetition first
    tries to stop at the closing tag; otherwise it takes one more character
    (any, by [re.DOTALL]) unless an opening ["[color="] starts there. *)
Fixpoint scan_text (s : str) : option (str * str) :=
  match strip_prefix (lit "[/color]") s with
  | Some after => Some ([], after)
  | None =>
      if starts_with (lit "[color=") s then None
      else
        match s with
        | [] => None
        | c :: s' =>
            match scan_text s' with
            | Some (t, after) => Some (c :: t, after)
            | None => None
            end
        end
  end.

(** One alternative of the quantifier [{6,8}]: ["#"], [k] hex digits, ["]"],
    then the rest of the pattern.  Gives the groups [hex], [text] and the
    text after the match. *)
Definition match_with (k : nat) (s : str) : option (str * str * str) :=
  match s with
  | c :: s1 =>
      if N.eqb c (ch "#") then
        match take_hex k s1 with
        | Some (ds, d :: s2) =>
            if N.eqb d (ch "]") then
              match scan_text s2 with
              | Some (t, after) => Some (c :: ds, t, after)
              | None => None
              end
            else None
        | _ => None
        end
      else None
  | [] => None
  end.

Definition or_else {A} (a b : option A) : option A :=
  match a with Some _ => a | None => b end.

(** [INNERMOST_COLOR_RE.match] at the head of [s]; the greedy [{6,8}] is
    tried with 8, then 7, then 6 digits. *)
Definition INNERMOST_COLOR_RE (s : str) : option (str * str * str) :=
  match strip_prefix (lit "[color=") s with
  | None => None
  | Some r => or_else (match_with 8 r) (or_else (match_with 7 r) (match_with 6 r))
  end.

(** A match: the text before it, the groups, and the text after it. *)
Record found : Type := Found {
  before : str;
  hex : str;
  text : str;
  after : str
}.

(** [INNERMOST_COLOR_RE.search]: the leftmost position with a match. *)
Fixpoint search (s : str) : option found :=
  match INNERMOST_COLOR_RE s with
  | Some (h, t, a) => Some (Found [] h t a)
  | None =>
      match s with
      | [] => None
      | c :: s' =>
          match search s' with
          | Some f => Some (Found (c :: before f) (hex f) (text f) (after f))
          | None => None
          end
      end
  end.

(** *** Colours *)

Definition digit_value (c : N) : N :=
  (if (ch "0" <=? c) && (c <=? ch "9") then c - ch "0"
   else if (ch "A" <=? c) && (c <=? ch "F") then c - ch "A" + 10
   else if (ch "a" <=? c) && (c <=? ch "f") then c - ch "a" + 10
   else 0)%N.

Definition hex_value (s : str) : N :=
  List.fold_left (fun acc c => (16 * acc + digit_value c)%N) s 0%N.

(** [int(s, 16)] on a string of hex digits.  Any other string is reported as
    [ValueError]. *)
Definition int16 (s : str) : result N :=
  match s with
  | [] => Raise ValueError
  | _ => if List.forallb is_hex s then Ok (hex_value s) else Raise ValueError
  end.

(** [s[a:b]] for [0 <= a <= b]. *)
Definition slice (a b : nat) (s : str) : str := List.firstn (b - a) (List.skipn a s).

(** [s[-6:]]. *)
Definition last6 (s : str) : str := List.skipn (List.length s - 6) s.

(** The escape sequence [\033[38;2;r;g;bm] that opens the colour of
    [hex_code], from its last six characters. *)
Definition sgr_of (r g b : N) : str :=
  ESC :: lit "[38;2;" ++ dec r ++ lit ";" ++ dec g ++ lit ";" ++ dec b ++ lit "m".

Definition sgr_reset : str := ESC :: lit "[0m".

Definition sgr_open (hex_code : str) : str :=
  let rgb_hex := last6 hex_code in
  sgr_of (hex_value (slice 0 2 rgb_hex)) (hex_value (slice 2 4 rgb_hex))
         (hex_value (slice 4 6 rgb_hex)).

(** The body of the loop after a match: the replacement text. *)
Definition ansi_colored_text (hex_code inner_text : str) : result str :=
  let rgb_hex := last6 hex_code in
  match int16 (slice 0 2 rgb_hex) with
  | Raise e => Raise e
  | Ok r =>
      match int16 (slice 2 4 rgb_hex) with
      | Raise e => Raise e
      | Ok g =>
          match int16 (slice 4 6 rgb_hex) with
          | Raise e => Raise e
          | Ok b => Ok (sgr_of r g b ++ inner_text ++ sgr_reset)
          end
      end
  end.

(** The [while True] loop; [None] when the fuel runs out. *)
Fixpoint render_loop (fuel : nat) (current_text : str) : option (result str) :=
  match fuel with
  | O => None
  | S fuel' =>
      match search current_text with
      | None => Some (Ok current_text)
      | Some f =>
          match ansi_colored_text (hex f) (text f) with
          | Raise e => Some (Raise e)
          | Ok colored => render_loop fuel' (before f ++ colored ++ after f)
          end
      end
  end.

(** Number of positions of [s] at which ["[/color]"] starts. *)
Fixpoint count_close (s : str) : nat :=
  match s with
  | [] => O
  | _ :: s' => ((if starts_with (lit "[/color]") s then 1 else 0) + count_close s')%nat
  end.

(** [_render_all_colors_iteratively]: every iteration removes one
    ["[/color]"] (see [replacement_removes_a_close]), so one more than their
    number is fuel enough. *)
Definition _render_all_colors_iteratively (text_segment : str) : option (result str) :=
  render_loop (S (count_close text_segment)) text_segment.

Definition strip_font (markup : str) : str :=
  let processed_markup := remove_matches FONT_OPEN_RE 0 markup in
  remove_matches (literal_match (lit "[/font]")) 0 processed_markup.

(** [pretty_print_markup]: the line it prints, without the newline that
    [print] adds. *)
Definition pretty_print_markup (markup : str) : option (result str) :=
  _render_all_colors_iteratively (strip_font markup).

End Markup.

(** ** The condition generator ([progress.py]) *)

(** *** Python floats

    A finite binary64 value in sign-magnitude form, the magnitude as the
    exact rational it denotes.  Every float operation is the exact result
    rounded; the rounding [fl] of magnitudes is a parameter of the
    development (see [Progress]). *)
Record pyfloat : Type := PyFloat { negative : bool; magnitude : Q }.

Definition float_value (x : pyfloat) : Q :=
  if negative x then - magnitude x else magnitude x.

(** The argument lies in the interval [0, 1]. *)
Definition in_unit (x : pyfloat) : Prop := 0 <= float_value x /\ float_value x <= 1.

(** Round a non-negative rational to the nearest integer, ties to even. *)
Definition round_half_even (q : Q) : Z :=
  let n := Qnum q in
  let d := Z.pos (Qden q) in
  let k := (n / d)%Z in
  match (2 * (n mod d) ?= d)%Z with
  | Lt => k
  | Gt => (k + 1)%Z
  | Eq => if Z.even k then k else (k + 1)%Z
  end.

(** [format(x, ".1f")]: the exact value rounded to one decimal, ties to
    even. *)
Definition format_1f (x : pyfloat) : str :=
  let t := round_half_even (magnitude x * 10) in
  (if negative x then lit "-" else [])
    ++ dec (Z.to_N (t / 10)) ++ lit "." ++ dec (Z.to_N (t mod 10)).

(** The alignment [>w]: pad with spaces on the left up to width [w]. *)
Definition pad_left (w : nat) (s : str) : str :=
  List.repeat (ch " ") (w - List.length s) ++ s.

(** [str.isspace] of one character. *)
Definition is_space (c : N) : bool :=
  ((9 <=? c) && (c <=? 13) || (28 <=? c) && (c <=? 32)
   || (c =? 133) || (c =? 160) || (c =? 5760)
   || (8192 <=? c) && (c <=? 8202)
   || (c =? 8232) || (c =? 8233) || (c =? 8239) || (c =? 8287) || (c =? 12288))%N.

Fixpoint lstrip (s : str) : str :=
  match s with
  | [] => []
  | c :: s' => if is_space c then lstrip s' else s
  end.

Definition strip (s : str) : str := List.rev (lstrip (List.rev (lstrip s))).

(** What is assumed of the rounding [fl] of magnitudes: rounding to nearest
    is monotone and leaves 0, 1 and 100, which are floats, unchanged. *)
Record rounding (fl : Q -> Q) : Prop := Rounding {
  fl_mono : forall x y, x <= y -> fl x <= fl y;
  fl_0 : fl 0 == 0;
  fl_1 : fl 1 == 1;
  fl_100 : fl 100 == 100
}.

(** The characters of a formatted number: digits, ["."] and ["-"]. *)
Definition number_char (c : N) : bool :=
  ((ch "0" <=? c) && (c <=? ch "9") || (c =? ch ".") || (c =? ch "-"))%N.

Module PBarConfig.
Record t (color : Type) : Type := Make {
  position : Z * Z;
  signal_name : str;
  prefix : str;
  cmap : option (pyfloat -> color);
  length : Z;
  step_size : Z
}.
End PBarConfig.

(** One entry of the returned list: the dict
    [{"condition": {"first_signal": {"name": _}, "constant": _,
      "comparator": _}, "icon": {"name": _}, "text": _}]. *)
Record condition : Type := Condition {
  first_signal : str;
  constant : Z;
  comparator : str;
  icon : str;
  text : str
}.

Definition with_comparator (c : str) (d : condition) : condition :=
  Condition (first_signal d) (constant d) c (icon d) (text d).

(** Strictly increasing thresholds. *)
Fixpoint increasing (l : list Z) : Prop :=
  match l with
  | [] => True
  | a :: t => match t with [] => True | b :: _ => (a < b)%Z end /\ increasing t
  end.

Module Progress.

Section Generator.

(** What [config.cmap] returns, and [mpl.colors.rgb2hex] on it. *)
Variable color : Type.
Variable rgb2hex : color -> str.

(** Rounding of a non-negative rational to binary64. *)
Variable fl : Q -> Q.

(** A computation that may raise and that calls [config.cmap]: the
    arguments of the calls made so far, and the outcome. *)
Definition M (A : Type) : Type := list pyfloat * result A.

Definition ret {A} (a : A) : M A := ([], Ok a).

Definition raise {A} (e : exn) : M A := ([], Raise e).

Definition bind {A B} (m : M A) (k : A -> M B) : M B :=
  match m with
  | (calls, Raise e) => (calls, Raise e)
  | (calls, Ok a) => let '(calls', r) := k a in (calls ++ calls', r)
  end.

Notation "x <- m ;; k" := (bind m (fun x => k))
  (at level 61, m at next level, right associativity).
Notation "' p <- m ;; k" := (bind m (fun x => let p := x in k))
  (at level 61, p pattern, m at next level, right associativity).

Definition call (f : pyfloat -> color) (x : pyfloat) : M color := ([x], Ok (f x)).

Fixpoint for_each {A B} (l : list A) (f : A -> M B) : M (list B) :=
  match l with
  | [] => ret []
  | a :: l' => b <- f a ;; bs <- for_each l' f ;; ret (b :: bs)
  end.

(** [a / b] on integers: the quotient rounded to a float. *)
Definition truediv (a b : Z) : M pyfloat :=
  if (b =? 0)%Z then raise ZeroDivisionError
  else ret (PyFloat (xorb (a <? 0)%Z (b <? 0)%Z)
                    (fl (Z.abs a # Z.to_pos (Z.abs b)))).

(** [x * 100]. *)
Definition times100 (x : pyfloat) : pyfloat :=
  PyFloat (negative x) (fl (magnitude x * 100)).

(** [list(range(start, stop, step))]. *)
Definition range (start stop step : Z) : M (list Z) :=
  if (step =? 0)%Z then raise ValueError
  else
    let n := if (0 <? step)%Z then ((stop - start + step - 1) / step)%Z
             else ((start - stop - step - 1) / (- step))%Z in
    ret (List.map (fun i => (start + Z.of_nat i * step)%Z) (List.seq 0 (Z.to_nat n))).

(** [l[-1]]. *)
Definition last_item {A} (l : list A) : M A :=
  match List.rev l with
  | [] => raise IndexError
  | a :: _ => ret a
  end.

(** [l[i]] for [0 <= i]. *)
Definition item {A} (l : list A) (i : Z) : M A :=
  match List.nth_error l (Z.to_nat i) with
  | Some a => ret a
  | None => raise IndexError
  end.

(** The block characters U+258F ... U+2588, lightest to heaviest. *)
Definition substeps : str := [9615; 9614; 9613; 9612; 9611; 9610; 9609; 9608]%N.

Definition divs : Z := Z.of_nat (List.length substeps).

Definition colored (c : str) (s : str) : str :=
  lit "[color=" ++ c ++ lit "]" ++ s ++ lit "[/color]".

Variable config : PBarConfig.t color.

Definition max_threshold : Z := (PBarConfig.length config * divs)%Z.

(** The steps of the bar, with the last one forced to [max_threshold - 1]. *)
Definition steps : M (list Z) :=
  steps <- range (-1) max_threshold (PBarConfig.step_size config) ;;
  l <- last_item steps ;;
  ret (if (l <? max_threshold - 1)%Z then steps ++ [(max_threshold - 1)%Z] else steps).

(** The body of the loop over the steps. *)
Definition body (step : Z) : M condition :=
  let num_before := Z.max (step / divs) 0 in
  let num_cur := (step mod divs)%Z in
  let num_after := (PBarConfig.length config - num_before)%Z in
  '(bar, num_after) <-
     (if (step =? -1)%Z then ret ([], num_after)
      else
        full <- last_item substeps ;;
        cur <- item substeps num_cur ;;
        ret (rep full num_before ++ [cur], (num_after - 1)%Z)) ;;
  bar <-
     match PBarConfig.cmap config with
     | None => ret bar
     | Some cmap =>
         x <- truediv step (max_threshold - 1) ;;
         color <- call cmap x ;;
         let color := rgb2hex color in
         ret (match bar with [] => bar | _ => colored color bar end)
     end ;;
  let step := (step + 1)%Z in
  x <- truediv step (PBarConfig.length config * divs) ;;
  let postfix := pad_left 5 (format_1f (times100 x)) ++ lit "%" in
  let num_postfix_prefix := (List.length postfix - List.length (strip postfix))%nat in
  let postfix := strip postfix in
  full <- last_item substeps ;;
  let end_ := rep full num_after ++ List.repeat (ch "0") num_postfix_prefix in
  end_ <-
     match end_, PBarConfig.cmap config with
     | _ :: _, Some cmap =>
         x <- truediv step (max_threshold - 1) ;;
         color <- call cmap x ;;
         let color := rgb2hex color in
         ret (colored color end_)
     | _, _ => ret end_
     end ;;
  let pbar := bar ++ end_ in
  let text := PBarConfig.prefix config ++ lit "[font=technology-slot-level-font]"
                ++ pbar ++ lit "[/font]  " ++ postfix in
  ret (Condition (PBarConfig.signal_name config) step (lit "=")
                 (PBarConfig.signal_name config) text).

(** *** The loop body in closed form

    What [body] computes when no division fails, piece by piece; [body_eq]
    proves the two equal. *)

Definition quotient (a b : Z) : pyfloat :=
  PyFloat (xorb (a <? 0)%Z (b <? 0)%Z) (fl (Z.abs a # Z.to_pos (Z.abs b))).

Definition full_block : N := 9608%N.

(** The filled part of the bar at [step]. *)
Definition bar_of (step : Z) : str :=
  if (step =? -1)%Z then []
  else rep full_block (Z.max (step / divs) 0)
         ++ [List.nth (Z.to_nat (step mod divs)) substeps 0%N].

Definition num_after_of (step : Z) : Z :=
  if (step =? -1)%Z then (PBarConfig.length config - Z.max (step / divs) 0)%Z
  else (PBarConfig.length config - Z.max (step / divs) 0 - 1)%Z.

(** The percentage in its field of width 5. *)
Definition number_of (step : Z) : str :=
  format_1f (times100 (quotient (step + 1) (PBarConfig.length config * divs))).

Definition field_of (step : Z) : str := pad_left 5 (number_of step) ++ lit "%".

Definition fill_of (step : Z) : nat :=
  (List.length (field_of step) - List.length (strip (field_of step)))%nat.

Definition end_of (step : Z) : str :=
  rep full_block (num_after_of step) ++ List.repeat (ch "0") (fill_of step).

(** A piece of the bar in its colour, if there is a colour mapper and the
    piece is not empty. *)
Definition wrap (x : pyfloat) (piece : str) : str :=
  match PBarConfig.cmap config, piece with
  | Some cmap, _ :: _ => colored (rgb2hex (cmap x)) piece
  | _, _ => piece
  end.

Definition text_of (step : Z) : str :=
  PBarConfig.prefix config ++ lit "[font=technology-slot-level-font]"
    ++ (wrap (quotient step (max_threshold - 1)) (bar_of step)
        ++ wrap (quotient (step + 1) (max_threshold - 1)) (end_of step))
    ++ lit "[/font]  " ++ strip (field_of step).

Definition cond_of (step : Z) : condition :=
  Condition (PBarConfig.signal_name config) (step + 1) (lit "=")
            (PBarConfig.signal_name config) (text_of step).

(** The arguments [body] passes to the colour mapper at [step]. *)
Definition calls_of (step : Z) : list pyfloat :=
  match PBarConfig.cmap config with
  | None => []
  | Some _ =>
      quotient step (max_threshold - 1)
        :: match end_of step with
           | [] => []
           | _ :: _ => [quotient (step + 1) (max_threshold - 1)]
           end
  end.

(** [l[i]["condition"]["comparator"] = c]. *)
Definition set_comparator (i : nat) (c : str) (l : list condition) : M (list condition) :=
  match List.nth_error l i with
  | None => raise IndexError
  | Some d => ret (List.firstn i l ++ with_comparator c d :: List.skipn (S i) l)
  end.

Definition generate : M (list condition) :=
  steps <- steps ;;
  conditions <- for_each steps body ;;
  conditions <- set_comparator 0 (lit "<=") conditions ;;
  set_comparator (List.length conditions - 1) (lit ">=") conditions.

End Generator.


(** [generate_pbar_conditions]: what it returns or raises. *)
Definition generate_pbar_conditions {color} rgb2hex fl (config : PBarConfig.t color)
  : result (list condition) :=
  snd (generate rgb2hex fl config).

(** The arguments of the calls of [config.cmap], in order. *)
Definition cmap_arguments {color} rgb2hex fl (config : PBarConfig.t color)
  : list pyfloat :=
  fst (generate rgb2hex fl config).

(** Exact arithmetic: no rounding. *)
Definition exact (q : Q) : Q := q.

End Progress.

(** The threshold of the last condition returned, if any. *)
Definition last_threshold (r : result (list condition)) : option Z :=
  match r with
  | Ok cs => match List.rev cs with c :: _ => Some (constant c) | [] => None end
  | Raise _ => None
  end.

(** A colour mapper that ignores its argument, as [const_color] of the
    script, with the identity for [rgb2hex]. *)
Definition const_color (hex : str) : option (pyfloat -> str) := Some (fun _ => hex).

Definition config_of (prefix : str) (cmap : option (pyfloat -> str)) (length step_size : Z)
  : PBarConfig.t str :=
  PBarConfig.Make (0, 0)%Z (lit "parameter-0") prefix cmap length step_size.

(** The configuration of the tests: [PBarConfig(position=(0, 0), prefix="",
    length=10)]. *)
Definition test_config : PBarConfig.t str := config_of [] None 10 1.

Definition same (c : str) : str := c.



(** An escape sequence: ESC and the characters that follow it. *)
Definition esc (s : string) : str := ESC :: lit s.

(** ** Predicates used in the statements *)

(** No ["["] at all. *)
Definition plain (s : str) : bool :=
  List.forallb (fun c => negb (N.eqb c (ch "["))) s.

(** The head of [s] is not a ["["] followed by ["c"], ["/"], ["f"] or the
    end of [s]. *)
Definition head_ok (s : str) : bool :=
  match s with
  | [] => true
  | c :: s' =>
      if N.eqb c (ch "[") then
        match s' with
        | [] => false
        | d :: _ => negb (N.eqb d (ch "c") || N.eqb d (ch "/") || N.eqb d (ch "f"))
        end
      else true
  end.

(** Every ["["] of [s] is followed, inside [s], by a character other than
    ["c"], ["/"] and ["f"]: no tag of the markup can start in [s], whatever
    follows it. *)
Fixpoint inert (s : str) : bool :=
  match s with
  | [] => true
  | _ :: s' => head_ok s && inert s'
  end.

(** ["#"] and six to eight hex digits: what the group [hex] can hold. *)
Definition hex_ok (h : str) : bool :=
  match h with
  | [] => false
  | c :: ds =>
      N.eqb c (ch "#") && List.forallb Markup.is_hex ds
      && (6 <=? List.length ds)%nat && (List.length ds <=? 8)%nat
  end.

(** *** Well-nested markup and its rendering by a stack discipline

    The reference the colour loop is compared with: a text is a sequence of
    inert texts and colour spans, spans nest, and a span is rendered as its
    escape sequence, its rendered body and a reset. *)
Inductive markup : Type :=
| Stop
| Text (t : str) (rest : markup)
| Span (hex_code : str) (body : markup) (rest : markup).

Definition open_tag (h : str) : str := lit "[color=" ++ h ++ lit "]".

Fixpoint serialize (m : markup) : str :=
  match m with
  | Stop => []
  | Text t k => t ++ serialize k
  | Span h b k => open_tag h ++ serialize b ++ lit "[/color]" ++ serialize k
  end.

Fixpoint stack_render (m : markup) : str :=
  match m with
  | Stop => []
  | Text t k => t ++ stack_render k
  | Span h b k =>
      Markup.sgr_open h ++ stack_render b ++ Markup.sgr_reset ++ stack_render k
  end.

Fixpoint well_formed (m : markup) : bool :=
  match m with
  | Stop => true
  | Text t k => inert t && well_formed k
  | Span h b k => hex_ok h && well_formed b && well_formed k
  end.

(** No span at all. *)
Fixpoint flat (m : markup) : bool :=
  match m with
  | Stop => true
  | Text _ k => flat k
  | Span _ _ _ => false
  end.

Fixpoint spans (m : markup) : nat :=
  match m with
  | Stop => O
  | Text _ k => spans k
  | Span _ b k => S (spans b + spans k)
  end.

Definition shift (a : str) (f : Markup.found) : Markup.found :=
  Markup.Found (a ++ Markup.before f) (Markup.hex f) (Markup.text f) (Markup.after f).

Definition extend (f : Markup.found) (r : str) : Markup.found :=
  Markup.Found (Markup.before f) (Markup.hex f) (Markup.text f) (Markup.after f ++ r).

(** The leftmost innermost span: the first span, or if it has spans inside,
    the leftmost innermost span of its body. *)
Fixpoint locate (m : markup) : option Markup.found :=
  match m with
  | Stop => None
  | Text t k => option_map (shift t) (locate k)
  | Span h b k =>
      if flat b then Some (Markup.Found [] h (serialize b) (serialize k))
      else option_map (fun f => shift (open_tag h) (extend f (lit "[/color]" ++ serialize k)))
                      (locate b)
  end.

(** The markup once its leftmost innermost span is rendered. *)
Fixpoint resolve (m : markup) : markup :=
  match m with
  | Stop => Stop
  | Text t k => Text t (resolve k)
  | Span h b k =>
      if flat b then Text (Markup.sgr_open h ++ serialize b ++ Markup.sgr_reset) k
      else Span h (resolve b) k
  end.


(** The literal [p], not empty, occurs somewhere in [s]. *)
Fixpoint occurs (p s : str) : bool :=
  match s with
  | [] => false
  | _ :: s' => starts_with p s || occurs p s'
  end.



(** The [i]-th element of the step range of [config]. *)
Definition range_item {color} (config : PBarConfig.t color) (i : nat) : Z :=
  (-1 + Z.of_nat i * PBarConfig.step_size config)%Z.

(** The triple nesting of the tests, as markup. *)
Definition triple : markup :=
  Span (lit "#FF0000")
    (Text (lit "R ")
       (Span (lit "#00FF00")
          (Text (lit "G ")
             (Span (lit "#0000FF") (Text (lit "B") Stop) (Text (lit " G") Stop)))
          (Text (lit " R") Stop)))
    Stop.


(** ** Definitions for further properties of the renderer *)

(** The colour tag reduced to its last six digits. *)
Definition last_six (h : str) : str := ch "#" :: Markup.last6 h.

(** Markup with every colour reduced to its last six digits: the alpha
    digits of ["#AARRGGBB"] dropped. *)
Fixpoint drop_alpha (m : markup) : markup :=
  match m with
  | Stop => Stop
  | Text t k => Text t (drop_alpha k)
  | Span h b k => Span (last_six h) (drop_alpha b) (drop_alpha k)
  end.

(** The upper-case form of a hex digit. *)
Definition upper (c : N) : N :=
  if ((ch "a" <=? c) && (c <=? ch "f"))%N then (c - 32)%N else c.

(** Markup with every colour in upper case. *)
Fixpoint upper_case (m : markup) : markup :=
  match m with
  | Stop => Stop
  | Text t k => Text t (upper_case k)
  | Span h b k => Span (List.map upper h) (upper_case b) (upper_case k)
  end.

(** No ["]"] at all. *)
Definition no_rbracket (s : str) : bool :=
  List.forallb (fun c => negb (N.eqb c (ch "]"))) s.


(** ** The sampling helper of the tests

    [sample_evenly_interpolated] of [tests/test_progress.py].  [data] is a
    list and [num_samples] an [int] by their types, so the two [TypeError]
    branches are not reached. *)

Module Sampling.

Definition bind {A B} (r : result A) (k : A -> result B) : result B :=
  match r with
  | Ok a => k a
  | Raise e => Raise e
  end.

Fixpoint for_each {A B} (l : list A) (f : A -> result B) : result (list B) :=
  match l with
  | [] => Ok []
  | a :: l' => bind (f a) (fun b => bind (for_each l' f) (fun bs => Ok (b :: bs)))
  end.

(** [range(n)]. *)
Definition range (n : Z) : list Z := List.map Z.of_nat (List.seq 0 (Z.to_nat n)).

(** [data[i]]: a negative index counts from the end, an index outside the
    list raises [IndexError]. *)
Definition getitem {A} (data : list A) (i : Z) : result A :=
  let n := Z.of_nat (List.length data) in
  let j := if (i <? 0)%Z then (i + n)%Z else i in
  if ((0 <=? j) && (j <? n))%Z then
    match List.nth_error data (Z.to_nat j) with
    | Some a => Ok a
    | None => Raise IndexError
    end
  else Raise IndexError.

(** [int(round(x))]: the nearest integer, ties to even. *)
Definition round (x : pyfloat) : Z :=
  if negative x then (- round_half_even (magnitude x))%Z
  else round_half_even (magnitude x).

Section Sample.

Variable A : Type.

(** Rounding of a non-negative rational to binary64. *)
Variable fl : Q -> Q.

(** [a / b] on integers. *)
Definition truediv (a b : Z) : result pyfloat := snd (Progress.truediv fl a b).

Definition sample_evenly_interpolated (data : list A) (num_samples : Z)
  : result (list A) :=
  let n := Z.of_nat (List.length data) in
  if (num_samples <? 0)%Z then Raise ValueError
  else if (num_samples =? 0)%Z then Ok []
  else if (n =? 0)%Z then Ok []
  else if (num_samples =? 1)%Z then bind (getitem data (n / 2)) (fun a => Ok [a])
  else if (num_samples >=? n)%Z then Ok data
  else
    for_each (range num_samples) (fun i =>
      bind (truediv (i * (n - 1)) (num_samples - 1)) (fun float_idx =>
        let idx := round float_idx in
        getitem data idx)).

End Sample.

End Sampling.


(** ** Conversions of integers to floats

    Where an [int] meets a [float], Python converts it and raises
    [OverflowError] when it is too large: the exceptions above and this
    one. *)
Inductive error : Type :=
| Raised (e : exn)
| OverflowError.

Inductive outcome (A : Type) : Type :=
| Done (a : A)
| Failed (e : error).
Arguments Done {A} a.
Arguments Failed {A} e.

(** ** [linspace] ([progress.py]) *)

Module Linspace.

Section Floats.

(** The binary64 values with their subtraction, addition, multiplication
    and division by a divisor other than zero; [of_int] is the conversion
    of an [int], undefined where it overflows. *)
Variable F : Type.
Variables sub add mul div : F -> F -> F.
Variable of_int : Z -> option F.

Definition float (x : Z) : outcome F :=
  match of_int x with
  | Some f => Done f
  | None => Failed OverflowError
  end.

(** [x / b] for a float [x] and an [int] [b]; 0 converts, to a zero. *)
Definition truediv (x : F) (b : Z) : outcome F :=
  if (b =? 0)%Z then Failed (Raised ZeroDivisionError)
  else
    match float b with
    | Failed e => Failed e
    | Done y => Done (div x y)
    end.

Fixpoint for_each {A B} (l : list A) (f : A -> outcome B) : outcome (list B) :=
  match l with
  | [] => Done []
  | a :: l' =>
      match f a with
      | Failed e => Failed e
      | Done b =>
          match for_each l' f with
          | Failed e => Failed e
          | Done bs => Done (b :: bs)
          end
      end
  end.

Definition linspace (start stop : F) (num : Z) : outcome (list F) :=
  match truediv (sub stop start) (num - 1) with
  | Failed e => Failed e
  | Done step =>
      for_each (Sampling.range num) (fun i =>
        match float i with
        | Failed e => Failed e
        | Done i => Done (add start (mul step i))
        end)
  end.

End Floats.

End Linspace.

(** ** The blueprint ([progress.py]) *)

(** A display panel: the dict that [generate_pbar_entity] returns, with
    [parameters], [text] and [icon] for the entries of its
    ["control_behavior"]. *)
Module Entity.
Record t : Type := Make {
  entity_number : Z;
  name : str;
  position : pyfloat * pyfloat;
  direction : Z;
  parameters : list condition;
  text : str;
  icon : str;
  always_show : bool
}.
End Entity.

Module Blueprint.

(** The dict under ["blueprint"]: an icon is a signal name and an index, a
    parameter is its ["type"] and its ["id"]. *)
Record t : Type := Make {
  icons : list (str * Z);
  entities : list Entity.t;
  wires : list Z;
  parameters : list (str * str);
  item : str;
  version : Z
}.

(** An [int] converts to [float] when its magnitude rounds to a finite
    binary64 value. *)
Definition float_limit : Z := (2 ^ 1024 - 2 ^ 970)%Z.

(** A usable configuration: a length and a step size of at least 1, and a
    position that converts to [float]. *)
Definition valid {color} (config : PBarConfig.t color) : Prop :=
  (1 <= PBarConfig.length config)%Z /\ (1 <= PBarConfig.step_size config)%Z
  /\ (Z.abs (fst (PBarConfig.position config)) < float_limit)%Z
  /\ (Z.abs (snd (PBarConfig.position config)) < float_limit)%Z.

Section Assembly.

Variable color : Type.
Variable rgb2hex : color -> str.

(** Rounding of a non-negative rational to binary64. *)
Variable fl : Q -> Q.

(** [json.dumps] on the blueprint; [str.encode("utf-8")],
    [zlib.compress(_, level=9)], [b64encode] and [bytes.decode("utf-8")],
    on bytes. *)
Variable dumps : t -> str.
Variable encode : str -> list N.
Variable compress : list N -> list N.
Variable b64encode : list N -> list N.
Variable decode : list N -> str.

Definition json_to_blueprint (json : str) : str :=
  let json_bytes := encode json in
  let compressed := compress json_bytes in
  lit "0" ++ decode (b64encode compressed).

(** [float(x)] for an [int]. *)
Definition float_of_int (x : Z) : outcome pyfloat :=
  if (Z.abs x <? float_limit)%Z
  then Done (PyFloat (x <? 0)%Z (fl (inject_Z (Z.abs x))))
  else Failed OverflowError.

(** [x + 0.5] for an [int] [x]. *)
Definition add_half (x : Z) : outcome pyfloat :=
  match float_of_int x with
  | Failed e => Failed e
  | Done f =>
      Done (if negative f then
              if Qle_bool (magnitude f) (1 # 2)
              then PyFloat false (fl ((1 # 2) - magnitude f))
              else PyFloat true (fl (magnitude f - (1 # 2)))
            else PyFloat false (fl (magnitude f + (1 # 2))))
  end.

Definition generate_pbar_entity (config : PBarConfig.t color) (entity_number : Z)
  : outcome Entity.t :=
  match Progress.generate_pbar_conditions rgb2hex fl config with
  | Raise e => Failed (Raised e)
  | Ok conditions =>
      match add_half (fst (PBarConfig.position config)) with
      | Failed e => Failed e
      | Done x =>
          match add_half (snd (PBarConfig.position config)) with
          | Failed e => Failed e
          | Done y =>
              Done (Entity.Make entity_number (lit "display-panel") (x, y) 8
                      conditions [] (PBarConfig.signal_name config) true)
          end
      end
  end.

(** The loop of [generate_bp_string] over [enumerate(configs, 1)], from the
    number [i] on. *)
Fixpoint loop (i : Z) (configs : list (PBarConfig.t color))
    (entities : list Entity.t) (parameters : list (str * str))
  : outcome (list Entity.t * list (str * str)) :=
  match configs with
  | [] => Done (entities, parameters)
  | config :: configs' =>
      match generate_pbar_entity config i with
      | Failed e => Failed e
      | Done entity =>
          let entities := entities ++ [entity] in
          let parameters :=
            if occurs (lit "parameter") (PBarConfig.signal_name config)
            then parameters ++ [(lit "id", PBarConfig.signal_name config)]
            else parameters in
          loop (i + 1) configs' entities parameters
      end
  end.

(** The dict [bp_json["blueprint"]]. *)
Definition bp_json (configs : list (PBarConfig.t color)) : outcome t :=
  match loop 1 configs [] [] with
  | Failed e => Failed e
  | Done (entities, parameters) =>
      Done (Make [(lit "display-panel", 1%Z)] entities [] parameters
              (lit "blueprint") 562949954273281)
  end.

Definition generate_bp_string (configs : list (PBarConfig.t color)) : outcome str :=
  match bp_json configs with
  | Failed e => Failed e
  | Done b => Done (json_to_blueprint (dumps b))
  end.

End Assembly.

(** What a panel made for [config] under the number [i] holds. *)
Definition panel_of {color} (rgb2hex : color -> str) (fl : Q -> Q)
    (config : PBarConfig.t color) (i : Z) (e : Entity.t) : Prop :=
  Entity.entity_number e = i
  /\ Entity.name e = lit "display-panel"
  /\ Progress.generate_pbar_conditions rgb2hex fl config = Ok (Entity.parameters e)
  /\ Entity.icon e = PBarConfig.signal_name config
  /\ Entity.text e = []
  /\ Entity.direction e = 8%Z
  /\ Entity.always_show e = true.

(** The signal names that contain ["parameter"], in the order of the
    configurations, each as a parameter of type ["id"]. *)
Definition named {color} (configs : list (PBarConfig.t color)) : list (str * str) :=
  List.map (fun s => (lit "id", s))
    (List.filter (occurs (lit "parameter"))
       (List.map (fun c => PBarConfig.signal_name c) configs)).

(** The script: twelve bars of length 10, one for each science pack, two
    tiles apart, each in its constant colour. *)
Definition colors : list (str * str) :=
  [ (lit "#8e1dcc", lit "production-science-pack");
    (lit "#e82195", lit "electromagnetic-science-pack");
    (lit "#e94040", lit "automation-science-pack");
    (lit "#ff9a25", lit "metallurgic-science-pack");
    (lit "#f5e45b", lit "utility-science-pack");
    (lit "#a2b90b", lit "agricultural-science-pack");
    (lit "#55f261", lit "logistic-science-pack");
    (lit "#3ec5e3", lit "chemical-science-pack");
    (lit "#2c46c5", lit "cryogenic-science-pack");
    (lit "#29274f", lit "promethium-science-pack");
    (lit "#71788f", lit "military-science-pack");
    (lit "#f9f9f9", lit "space-science-pack") ].

Definition base_config : PBarConfig.t str :=
  PBarConfig.Make (0, 0)%Z (lit "parameter-0") [] None 10 1.

Definition configs : list (PBarConfig.t str) :=
  List.map
    (fun '(i, (color, signal_name)) =>
       PBarConfig.Make (0, 2 * Z.of_nat i)%Z signal_name (PBarConfig.prefix base_config)
         (const_color color) (PBarConfig.length base_config)
         (PBarConfig.step_size base_config))
    (List.combine (List.seq 0 (List.length colors)) colors).

End Blueprint.


Module MarkupTheory.
Import Markup.

#[local] Arguments N.eqb : simpl never.
#[local] Arguments N.leb : simpl never.
#[local] Arguments ch : simpl never.

Lemma strip_prefix_app p s : strip_prefix p (p ++ s) = Some s.
Proof.
  induction p as [|c p IH]; simpl; [reflexivity|].
  now rewrite N.eqb_refl.
Qed.

Lemma strip_prefix_Some p : forall s r, strip_prefix p s = Some r -> s = p ++ r.
Proof.
  induction p as [|c p IH]; simpl; intros s r H.
  - now inversion H.
  - destruct s as [|d s]; [discriminate|].
    destruct (N.eqb_spec c d); [|discriminate].
    subst. f_equal. now apply IH.
Qed.

Lemma strip_prefix_app_l p : forall s r b,
  strip_prefix p s = Some r -> strip_prefix p (s ++ b) = Some (r ++ b).
Proof.
  induction p as [|c p IH]; simpl; intros s r b H.
  - now inversion H.
  - destruct s as [|d s]; [discriminate|]. simpl.
    destruct (N.eqb c d); [|discriminate]. now apply IH.
Qed.


(** A pattern that does not contain [x] cannot reach across an [x]. *)
Lemma strip_prefix_barrier p x : ~ In x p -> forall s b,
  strip_prefix p (s ++ x :: b) = option_map (fun r => r ++ x :: b) (strip_prefix p s).
Proof.
  induction p as [|c p IH]; simpl; intros Hx s b; [reflexivity|].
  destruct s as [|d s]; simpl.
  - destruct (N.eqb_spec c x); [|reflexivity]. exfalso. apply Hx. now left.
  - destruct (N.eqb c d); [|reflexivity]. apply IH. tauto.
Qed.

Lemma starts_with_barrier p x : ~ In x p -> forall s b,
  starts_with p (s ++ x :: b) = starts_with p s.
Proof.
  intros Hx s b. unfold starts_with. rewrite strip_prefix_barrier by assumption.
  now destruct (strip_prefix p s).
Qed.

Lemma inert_cons c s : inert (c :: s) = head_ok (c :: s) && inert s.
Proof. reflexivity. Qed.

(** No tag pattern, that is ["["] and then ["c"], ["/"] or ["f"], matches at
    the head of an inert text, whatever follows the text. *)
Lemma inert_head_no_tag c s b x p :
  head_ok (c :: s) = true ->
  x = ch "c" \/ x = ch "/" \/ x = ch "f" ->
  strip_prefix (ch "[" :: x :: p) ((c :: s) ++ b) = None.
Proof.
  intros H Hx. simpl in *.
  destruct (N.eqb_spec (ch "[") c) as [<-|Hc]; [|reflexivity].
  rewrite N.eqb_refl in H.
  destruct s as [|d s]; [discriminate|]. simpl.
  destruct (N.eqb_spec x d) as [<-|]; [|reflexivity].
  exfalso. destruct Hx as [->|[->| ->]]; discriminate.
Qed.

Lemma inert_app a : forall b, inert a = true -> inert b = true -> inert (a ++ b) = true.
Proof.
  induction a as [|c a IH]; intros b Ha Hb; [assumption|].
  rewrite inert_cons in Ha. apply andb_prop in Ha as [Hh Ha].
  change ((c :: a) ++ b) with (c :: (a ++ b)). rewrite inert_cons.
  rewrite IH by assumption. rewrite andb_true_r.
  simpl in *. destruct (N.eqb c (ch "[")); [|reflexivity].
  destruct a; [discriminate|assumption].
Qed.

Lemma plain_inert s : plain s = true -> inert s = true.
Proof.
  induction s as [|c s IH]; [reflexivity|]. simpl. intros H.
  apply andb_prop in H as [Hc Hs]. rewrite IH by assumption.
  destruct (N.eqb c (ch "[")); [discriminate|reflexivity].
Qed.

Lemma plain_app a b : plain (a ++ b) = plain a && plain b.
Proof. apply forallb_app. Qed.

(** *** What a match looks like *)

Lemma take_hex_spec k : forall s ds r,
  take_hex k s = Some (ds, r) ->
  s = ds ++ r /\ List.length ds = k /\ forallb is_hex ds = true.
Proof.
  induction k as [|k IH]; simpl; intros s ds r H.
  - inversion H; subst. auto.
  - destruct s as [|c s]; [discriminate|].
    destruct (is_hex c) eqn:Hc; [|discriminate].
    destruct (take_hex k s) as [[ds' r']|] eqn:E; [|discriminate].
    inversion H; subst. apply IH in E as (-> & <- & Hd).
    simpl. rewrite Hc, Hd. auto.
Qed.

Lemma scan_text_eq s :
  scan_text s =
  match strip_prefix (lit "[/color]") s with
  | Some after => Some ([], after)
  | None =>
      if starts_with (lit "[color=") s then None
      else match s with
           | [] => None
           | c :: s' =>
               match scan_text s' with
               | Some (t, after) => Some (c :: t, after)
               | None => None
               end
           end
  end.
Proof. destruct s; reflexivity. Qed.

Lemma scan_text_spec : forall s t a,
  scan_text s = Some (t, a) -> s = t ++ lit "[/color]" ++ a.
Proof.
  induction s as [|c s IH]; intros t a H; rewrite scan_text_eq in H.
  - discriminate.
  - destruct (strip_prefix (lit "[/color]") (c :: s)) as [r|] eqn:E.
    + inversion H; subst. now apply strip_prefix_Some in E.
    + destruct (starts_with (lit "[color=") (c :: s)); [discriminate|].
      destruct (scan_text s) as [[t' a']|] eqn:E'; [|discriminate].
      inversion H; subst. rewrite (IH _ _ eq_refl) at 1. reflexivity.
Qed.

Lemma match_with_spec k s h t a :
  match_with k s = Some (h, t, a) ->
  s = h ++ lit "]" ++ t ++ lit "[/color]" ++ a
  /\ (exists ds, h = ch "#" :: ds /\ List.length ds = k /\ forallb is_hex ds = true)
  /\ scan_text (t ++ lit "[/color]" ++ a) = Some (t, a).
Proof.
  unfold match_with. destruct s as [|c s]; [discriminate|].
  destruct (N.eqb_spec c (ch "#")) as [->|]; [|discriminate].
  destruct (take_hex k s) as [[ds [|d r]]|] eqn:E; try discriminate.
  destruct (N.eqb_spec d (ch "]")) as [->|]; [|discriminate].
  destruct (scan_text r) as [[t' a']|] eqn:E'; [|discriminate].
  intros H; inversion H; subst.
  apply take_hex_spec in E as (-> & <- & Hd).
  pose proof (scan_text_spec _ E') as ->.
  split; [|split].
  - reflexivity.
  - eauto.
  - assumption.
Qed.

Lemma hex_ok_intro ds k :
  List.length ds = k -> forallb is_hex ds = true -> (6 <= k <= 8)%nat ->
  hex_ok (ch "#" :: ds) = true.
Proof.
  intros <- Hd Hk. unfold hex_ok. rewrite N.eqb_refl, Hd.
  rewrite !andb_true_iff. repeat split; apply Nat.leb_le; lia.
Qed.

Lemma INNERMOST_COLOR_RE_spec s h t a :
  INNERMOST_COLOR_RE s = Some (h, t, a) ->
  s = lit "[color=" ++ h ++ lit "]" ++ t ++ lit "[/color]" ++ a
  /\ hex_ok h = true
  /\ scan_text (t ++ lit "[/color]" ++ a) = Some (t, a).
Proof.
  unfold INNERMOST_COLOR_RE.
  destruct (strip_prefix (lit "[color=") s) as [r|] eqn:E; [|discriminate].
  apply strip_prefix_Some in E as ->.
  unfold or_else.
  destruct (match_with 8 r) as [[[h8 t8] a8]|] eqn:E8.
  { intros H; inversion H; subst. apply match_with_spec in E8 as (-> & (ds & -> & Hl & Hd) & Hs).
    split; [reflexivity|]. split; [|assumption]. eapply hex_ok_intro; eauto; lia. }
  destruct (match_with 7 r) as [[[h7 t7] a7]|] eqn:E7.
  { intros H; inversion H; subst. apply match_with_spec in E7 as (-> & (ds & -> & Hl & Hd) & Hs).
    split; [reflexivity|]. split; [|assumption]. eapply hex_ok_intro; eauto; lia. }
  intros H. apply match_with_spec in H as (-> & (ds & -> & Hl & Hd) & Hs).
  split; [reflexivity|]. split; [|assumption]. eapply hex_ok_intro; eauto; lia.
Qed.

Lemma search_eq s :
  search s =
  match INNERMOST_COLOR_RE s with
  | Some (h, t, a) => Some (Found [] h t a)
  | None =>
      match s with
      | [] => None
      | c :: s' =>
          match search s' with
          | Some f => Some (Found (c :: before f) (hex f) (text f) (after f))
          | None => None
          end
      end
  end.
Proof. destruct s; reflexivity. Qed.

(** A match is an opening tag with a valid colour, a text, and a closing
    tag; the text before and after it is that of the input. *)
Lemma search_spec : forall s f,
  search s = Some f ->
  s = before f ++ lit "[color=" ++ hex f ++ lit "]" ++ text f ++ lit "[/color]" ++ after f
  /\ hex_ok (hex f) = true.
Proof.
  induction s as [|c s IH]; intros f H; rewrite search_eq in H.
  - destruct (INNERMOST_COLOR_RE []) as [[[h t] a]|] eqn:E; [|discriminate].
    inversion H; subst. simpl. apply INNERMOST_COLOR_RE_spec in E. tauto.
  - destruct (INNERMOST_COLOR_RE (c :: s)) as [[[h t] a]|] eqn:E.
    + inversion H; subst. simpl. apply INNERMOST_COLOR_RE_spec in E. tauto.
    + destruct (search s) as [f'|] eqn:E'; [|discriminate].
      inversion H; subst. simpl. destruct (IH _ eq_refl) as [Hs Hh].
      split; [|assumption]. now rewrite Hs at 1.
Qed.

(** *** The replacement text *)

Lemma int16_pair a b :
  is_hex a = true -> is_hex b = true -> int16 [a; b] = Ok (hex_value [a; b]).
Proof. intros Ha Hb. unfold int16. simpl forallb. now rewrite Ha, Hb. Qed.

(** The colour of a matched tag always parses: the loop body cannot raise. *)
Lemma ansi_colored_text_ok h t :
  hex_ok h = true -> ansi_colored_text h t = Ok (sgr_open h ++ t ++ sgr_reset).
Proof.
  unfold hex_ok. destruct h as [|c ds]; [discriminate|].
  rewrite !andb_true_iff. intros [[[_ Hd] H6] H8].
  apply Nat.leb_le in H6, H8.
  do 6 (destruct ds as [|? ds]; [simpl in H6; lia|]).
  assert (Hfin : forall d1 d2 d3 d4 d5 d6 pre,
    forallb is_hex [d1; d2; d3; d4; d5; d6] = true ->
    last6 (c :: pre ++ [d1; d2; d3; d4; d5; d6]) = [d1; d2; d3; d4; d5; d6] ->
    ansi_colored_text (c :: pre ++ [d1; d2; d3; d4; d5; d6]) t
    = Ok (sgr_open (c :: pre ++ [d1; d2; d3; d4; d5; d6]) ++ t ++ sgr_reset)).
  { intros d1 d2 d3 d4 d5 d6 pre Hx Hl. unfold ansi_colored_text, sgr_open.
    rewrite Hl. unfold slice. cbn [Nat.sub skipn firstn].
    simpl in Hx. rewrite ?andb_true_iff in Hx.
    rewrite !int16_pair by tauto. reflexivity. }
  destruct ds as [|d7 ds].
  { apply (Hfin _ _ _ _ _ _ []); [assumption|reflexivity]. }
  destruct ds as [|d8 ds].
  { simpl in Hd. rewrite ?andb_true_iff in Hd.
    apply (Hfin _ _ _ _ _ _ [_]); [|reflexivity].
    simpl. rewrite ?andb_true_iff. tauto. }
  destruct ds as [|d9 ds]; [|simpl in H8; lia].
  simpl in Hd. rewrite ?andb_true_iff in Hd.
  apply (Hfin _ _ _ _ _ _ [_; _]); [|reflexivity].
  simpl. rewrite ?andb_true_iff. tauto.
Qed.

Lemma plain_uint_chars u : plain (uint_chars u) = true.
Proof. induction u; simpl; auto. Qed.

Lemma plain_dec n : plain (dec n) = true.
Proof. apply plain_uint_chars. Qed.

Lemma inert_sgr_of r g b : inert (sgr_of r g b) = true.
Proof.
  unfold sgr_of.
  change (ESC :: lit "[38;2;" ++ dec r ++ lit ";" ++ dec g ++ lit ";" ++ dec b ++ lit "m")
    with ((ESC :: lit "[38;2;") ++ dec r ++ lit ";" ++ dec g ++ lit ";" ++ dec b ++ lit "m").
  repeat apply inert_app; try reflexivity; apply plain_inert, plain_dec.
Qed.

Lemma inert_sgr_open h : inert (sgr_open h) = true.
Proof. apply inert_sgr_of. Qed.

Lemma inert_sgr_reset : inert sgr_reset = true.
Proof. reflexivity. Qed.

(** *** Inert text is transparent to the matcher *)

Lemma lit_color_open : lit "[color=" = ch "[" :: ch "c" :: lit "olor=".
Proof. reflexivity. Qed.

Lemma lit_color_close : lit "[/color]" = ch "[" :: ch "/" :: lit "color]".
Proof. reflexivity. Qed.

Lemma lit_font_open : lit "[font=" = ch "[" :: ch "f" :: lit "ont=".
Proof. reflexivity. Qed.

Lemma lit_font_close : lit "[/font]" = ch "[" :: ch "/" :: lit "font]".
Proof. reflexivity. Qed.

Lemma inert_no_color_open c s b :
  head_ok (c :: s) = true -> strip_prefix (lit "[color=") ((c :: s) ++ b) = None.
Proof. intros H. rewrite lit_color_open. apply inert_head_no_tag; auto. Qed.

Lemma inert_no_color_close c s b :
  head_ok (c :: s) = true -> strip_prefix (lit "[/color]") ((c :: s) ++ b) = None.
Proof. intros H. rewrite lit_color_close. apply inert_head_no_tag; auto. Qed.

Lemma inert_no_font_open c s b :
  head_ok (c :: s) = true -> strip_prefix (lit "[font=") ((c :: s) ++ b) = None.
Proof. intros H. rewrite lit_font_open. apply inert_head_no_tag; auto. Qed.

Lemma inert_no_font_close c s b :
  head_ok (c :: s) = true -> strip_prefix (lit "[/font]") ((c :: s) ++ b) = None.
Proof. intros H. rewrite lit_font_close. apply inert_head_no_tag; auto. Qed.

Lemma search_inert a : forall b,
  inert a = true -> search (a ++ b) = option_map (shift a) (search b).
Proof.
  induction a as [|c a IH]; intros b H.
  - simpl. destruct (search b) as [[]|]; reflexivity.
  - rewrite inert_cons in H. apply andb_prop in H as [Hh Ha].
    rewrite search_eq. unfold INNERMOST_COLOR_RE.
    rewrite inert_no_color_open by assumption.
    change ((c :: a) ++ b) with (c :: (a ++ b)). cbv iota.
    rewrite IH by assumption. now destruct (search b).
Qed.

Lemma scan_text_inert a : forall b,
  inert a = true ->
  scan_text (a ++ b) = option_map (fun '(t, r) => (a ++ t, r)) (scan_text b).
Proof.
  induction a as [|c a IH]; intros b H.
  - simpl. destruct (scan_text b) as [[]|]; reflexivity.
  - rewrite inert_cons in H. apply andb_prop in H as [Hh Ha].
    rewrite scan_text_eq. unfold starts_with.
    rewrite inert_no_color_open, inert_no_color_close by assumption.
    change ((c :: a) ++ b) with (c :: (a ++ b)). cbv iota.
    rewrite IH by assumption. now destruct (scan_text b) as [[]|].
Qed.

(** *** Counting closing tags *)

Lemma count_close_cons c s :
  count_close (c :: s)
  = ((if starts_with (lit "[/color]") (c :: s) then 1 else 0) + count_close s)%nat.
Proof. reflexivity. Qed.

Lemma count_close_inert a : forall b,
  inert a = true -> count_close (a ++ b) = count_close b.
Proof.
  induction a as [|c a IH]; intros b H; [reflexivity|].
  rewrite inert_cons in H. apply andb_prop in H as [Hh Ha].
  change ((c :: a) ++ b) with (c :: (a ++ b)). rewrite count_close_cons.
  change (c :: (a ++ b)) with ((c :: a) ++ b). unfold starts_with.
  rewrite inert_no_color_close by assumption. now rewrite IH.
Qed.

Lemma count_close_app_ge a : forall b,
  (count_close a + count_close b <= count_close (a ++ b))%nat.
Proof.
  induction a as [|c a IH]; intros b; [simpl; lia|].
  change ((c :: a) ++ b) with (c :: (a ++ b)). rewrite !count_close_cons.
  specialize (IH b). unfold starts_with.
  change (c :: (a ++ b)) with ((c :: a) ++ b).
  destruct (strip_prefix (lit "[/color]") (c :: a)) eqn:E.
  - rewrite (strip_prefix_app_l _ _ b E). lia.
  - destruct (strip_prefix (lit "[/color]") ((c :: a) ++ b)); lia.
Qed.

(** A closing tag cannot reach across an ESC. *)
Lemma count_close_ESC a : forall b,
  count_close (a ++ ESC :: b) = (count_close a + count_close b)%nat.
Proof.
  induction a as [|c a IH]; intros b; [reflexivity|].
  change ((c :: a) ++ ESC :: b) with (c :: (a ++ ESC :: b)). rewrite !count_close_cons.
  change (c :: (a ++ ESC :: b)) with ((c :: a) ++ ESC :: b).
  rewrite starts_with_barrier, IH; [lia|].
  cbv. intuition discriminate.
Qed.

Lemma count_close_tag a : count_close (lit "[/color]" ++ a) = S (count_close a).
Proof. reflexivity. Qed.

(** *** Every iteration removes a closing tag *)

Lemma sgr_open_shape h : exists X, sgr_open h = ESC :: X /\ inert X = true.
Proof.
  unfold sgr_open, sgr_of. eexists; split; [reflexivity|].
  repeat apply inert_app; try reflexivity; apply plain_inert, plain_dec.
Qed.

Lemma count_close_replacement a h t b :
  count_close (a ++ (sgr_open h ++ t ++ sgr_reset) ++ b)
  = (count_close a + count_close t + count_close b)%nat.
Proof.
  destruct (sgr_open_shape h) as (X & -> & HX).
  replace (a ++ ((ESC :: X) ++ t ++ sgr_reset) ++ b)
    with (a ++ ESC :: (X ++ (t ++ ESC :: (lit "[0m" ++ b)))).
  2:{ unfold sgr_reset. simpl. now rewrite <- !app_assoc. }
  rewrite count_close_ESC, count_close_inert by assumption.
  rewrite count_close_ESC. rewrite (count_close_inert (lit "[0m")) by reflexivity. lia.
Qed.

Lemma count_close_match a h t b :
  (count_close a + count_close t + count_close b
   < count_close (a ++ lit "[color=" ++ h ++ lit "]" ++ t ++ lit "[/color]" ++ b))%nat.
Proof.
  pose proof (count_close_app_ge a (lit "[color=" ++ h ++ lit "]" ++ t ++ lit "[/color]" ++ b)).
  pose proof (count_close_app_ge (lit "[color=") (h ++ lit "]" ++ t ++ lit "[/color]" ++ b)).
  pose proof (count_close_app_ge h (lit "]" ++ t ++ lit "[/color]" ++ b)).
  pose proof (count_close_app_ge (lit "]") (t ++ lit "[/color]" ++ b)).
  pose proof (count_close_app_ge t (lit "[/color]" ++ b)).
  rewrite count_close_tag in *. lia.
Qed.

Lemma replacement_removes_a_close s f :
  search s = Some f ->
  ansi_colored_text (hex f) (text f) = Ok (sgr_open (hex f) ++ text f ++ sgr_reset)
  /\ (count_close (before f ++ (sgr_open (hex f) ++ text f ++ sgr_reset) ++ after f)
      < count_close s)%nat.
Proof.
  intros H. apply search_spec in H as [Hs Hh]. split.
  - now apply ansi_colored_text_ok.
  - rewrite count_close_replacement. rewrite Hs at 1. apply count_close_match.
Qed.

Lemma render_loop_eq fuel s :
  render_loop (S fuel) s =
  match search s with
  | None => Some (Ok s)
  | Some f =>
      match ansi_colored_text (hex f) (text f) with
      | Raise e => Some (Raise e)
      | Ok colored => render_loop fuel (before f ++ colored ++ after f)
      end
  end.
Proof. reflexivity. Qed.

Lemma render_loop_total : forall fuel s,
  (count_close s < fuel)%nat -> exists r, render_loop fuel s = Some (Ok r).
Proof.
  induction fuel as [|fuel IH]; intros s H; [lia|].
  rewrite render_loop_eq. destruct (search s) as [f|] eqn:E; [|eauto].
  destruct (replacement_removes_a_close _ E) as [-> Hlt].
  apply IH. lia.
Qed.

(** More fuel does not change the outcome. *)
Lemma render_loop_more : forall fuel s r,
  render_loop fuel s = Some r ->
  forall fuel', (fuel <= fuel')%nat -> render_loop fuel' s = Some r.
Proof.
  induction fuel as [|fuel IH]; intros s r H fuel' Hle; [discriminate|].
  destruct fuel' as [|fuel']; [lia|].
  rewrite render_loop_eq in *. destruct (search s) as [f|]; [|assumption].
  destruct (ansi_colored_text (hex f) (text f)); [|assumption].
  eapply IH; eauto. lia.
Qed.

(** The renderer returns [r] as soon as the loop does, with any fuel. *)
Lemma render_any_fuel fuel s r :
  render_loop fuel s = Some (Ok r) -> _render_all_colors_iteratively s = Some (Ok r).
Proof.
  intros H. unfold _render_all_colors_iteratively.
  destruct (@render_loop_total (S (count_close s)) s) as [r' Hr']; [lia|].
  rewrite Hr'.
  pose proof (@render_loop_more _ _ _ H (fuel + S (count_close s))%nat) as H1.
  pose proof (@render_loop_more _ _ _ Hr' (fuel + S (count_close s))%nat) as H2.
  rewrite H1 in H2 by lia. symmetry. apply H2. lia.
Qed.

Lemma render_no_match s :
  search s = None -> _render_all_colors_iteratively s = Some (Ok s).
Proof. intros H. apply (render_any_fuel 1). simpl. now rewrite H. Qed.

Lemma render_step s f r :
  search s = Some f ->
  _render_all_colors_iteratively
    (before f ++ (sgr_open (hex f) ++ text f ++ sgr_reset) ++ after f) = Some (Ok r) ->
  _render_all_colors_iteratively s = Some (Ok r).
Proof.
  intros H Hr. unfold _render_all_colors_iteratively in Hr.
  apply (render_any_fuel (S (S (count_close
    (before f ++ (sgr_open (hex f) ++ text f ++ sgr_reset) ++ after f))))).
  rewrite render_loop_eq, H.
  destruct (replacement_removes_a_close _ H) as [-> _]. exact Hr.
Qed.

(** *** The loop on well-nested markup *)

Lemma is_hex_not_rbracket c : is_hex c = true -> N.eqb c (ch "]") = false.
Proof.
  intros H. destruct (N.eqb_spec c (ch "]")) as [->|]; [discriminate|reflexivity].
Qed.

Lemma is_hex_not_lbracket c : is_hex c = true -> N.eqb c (ch "[") = false.
Proof.
  intros H. destruct (N.eqb_spec c (ch "[")) as [->|]; [discriminate|reflexivity].
Qed.

(** [k] hex digits out of a run of digits that ends at a non-digit [x]. *)
Lemma take_hex_run x r : is_hex x = false -> forall k ds,
  forallb is_hex ds = true ->
  take_hex k (ds ++ x :: r) =
  if (k <=? List.length ds)%nat then Some (firstn k ds, skipn k ds ++ x :: r) else None.
Proof.
  intros Hx. induction k as [|k IH]; intros ds Hd.
  - reflexivity.
  - destruct ds as [|d ds]; simpl.
    + now rewrite Hx.
    + simpl in Hd. apply andb_prop in Hd as [Hd1 Hd2]. rewrite Hd1, IH by assumption.
      now destruct (k <=? List.length ds)%nat.
Qed.

Lemma match_with_run k ds rest :
  forallb is_hex ds = true ->
  match_with k (ch "#" :: ds ++ ch "]" :: rest) =
  if Nat.eqb k (List.length ds) then
    match scan_text rest with
    | Some (t, a) => Some (ch "#" :: ds, t, a)
    | None => None
    end
  else None.
Proof.
  intros Hd. unfold match_with. rewrite N.eqb_refl.
  rewrite take_hex_run by (assumption || reflexivity).
  destruct (Nat.leb_spec k (List.length ds)) as [Hle|Hlt].
  - destruct (Nat.eqb_spec k (List.length ds)) as [->|Hne].
    + rewrite firstn_all, skipn_all. cbn [app]. rewrite N.eqb_refl. reflexivity.
    + assert (Hk : (k < List.length ds)%nat) by lia.
      destruct (skipn k ds) as [|d tl] eqn:E.
      * apply (f_equal (@List.length N)) in E. rewrite length_skipn in E. simpl in E. lia.
      * simpl. assert (Hin : In d ds).
        { rewrite <- (firstn_skipn k ds), E. apply in_or_app. right. now left. }
        rewrite forallb_forall in Hd. now rewrite is_hex_not_rbracket by auto.
  - destruct (Nat.eqb_spec k (List.length ds)); [lia|reflexivity].
Qed.

Lemma hex_ok_inv h :
  hex_ok h = true ->
  exists ds, h = ch "#" :: ds /\ forallb is_hex ds = true
             /\ (6 <= List.length ds <= 8)%nat.
Proof.
  unfold hex_ok. destruct h as [|c ds]; [discriminate|].
  rewrite !andb_true_iff. intros [[[Hc Hd] H6] H8].
  apply N.eqb_eq in Hc as ->. apply Nat.leb_le in H6, H8. eauto.
Qed.

(** The pattern at an opening tag, in terms of what follows the tag. *)
Lemma INNERMOST_COLOR_RE_at_tag h rest :
  hex_ok h = true ->
  INNERMOST_COLOR_RE (open_tag h ++ rest) =
  match scan_text rest with
  | Some (t, a) => Some (h, t, a)
  | None => None
  end.
Proof.
  intros H. apply hex_ok_inv in H as (ds & -> & Hd & Hl).
  unfold INNERMOST_COLOR_RE, open_tag. rewrite <- app_assoc, strip_prefix_app.
  replace (((ch "#" :: ds) ++ lit "]") ++ rest) with (ch "#" :: ds ++ ch "]" :: rest)
    by (simpl; now rewrite <- app_assoc).
  rewrite !match_with_run by assumption.
  assert (Hc : List.length ds = 6%nat \/ List.length ds = 7%nat \/ List.length ds = 8%nat) by lia.
  destruct Hc as [->|[->| ->]]; simpl; destruct (scan_text rest) as [[]|]; reflexivity.
Qed.

Lemma plain_hex h : hex_ok h = true -> plain h = true.
Proof.
  intros H. apply hex_ok_inv in H as (ds & -> & Hd & _).
  simpl. rewrite forallb_forall in Hd. apply forallb_forall.
  intros c Hc. now rewrite is_hex_not_lbracket by auto.
Qed.

Lemma serialize_flat m : flat m = true -> serialize m = stack_render m.
Proof.
  induction m as [|t k IH|h b _ k _]; simpl; intros H; try discriminate; auto.
  now rewrite IH.
Qed.

Lemma inert_flat m : well_formed m = true -> flat m = true -> inert (serialize m) = true.
Proof.
  induction m as [|t k IH|h b _ k _]; simpl; intros Hw H; try discriminate; auto.
  apply andb_prop in Hw as [Ht Hk]. apply inert_app; auto.
Qed.

Lemma scan_text_close a : scan_text (lit "[/color]" ++ a) = Some ([], a).
Proof. rewrite scan_text_eq. now rewrite strip_prefix_app. Qed.

Lemma scan_text_open a : scan_text (lit "[color=" ++ a) = None.
Proof. reflexivity. Qed.

(** A text with a span inside is not the text of a match. *)
Lemma scan_text_nested m : forall r,
  well_formed m = true -> flat m = false -> scan_text (serialize m ++ r) = None.
Proof.
  induction m as [|t k IH|h b _ k _]; cbn [serialize well_formed flat];
    intros r Hw H; try discriminate.
  - apply andb_prop in Hw as [Ht Hk]. rewrite <- app_assoc.
    rewrite scan_text_inert by assumption. now rewrite IH.
  - unfold open_tag. rewrite <- !app_assoc. apply scan_text_open.
Qed.

Lemma locate_flat m : flat m = true -> locate m = None.
Proof.
  induction m as [|t k IH|h b _ k _]; simpl; intros H; try discriminate; auto.
  now rewrite IH.
Qed.

Lemma locate_nested m : flat m = false -> locate m <> None.
Proof.
  induction m as [|t k IH|h b IHb k _]; simpl; intros H; try discriminate.
  - destruct (locate k); [discriminate|]. now apply IH.
  - destruct (flat b) eqn:E; [discriminate|].
    destruct (locate b); [discriminate|]. now apply IHb.
Qed.

Lemma open_tag_cons h rest :
  open_tag h ++ rest = ch "[" :: (lit "color=" ++ h ++ lit "]") ++ rest.
Proof. unfold open_tag. rewrite <- !app_assoc. reflexivity. Qed.

(** Where the pattern fails at an opening tag, the search goes on after the
    tag. *)
Lemma search_skip_open_tag h rest :
  hex_ok h = true ->
  INNERMOST_COLOR_RE (open_tag h ++ rest) = None ->
  search (open_tag h ++ rest) = option_map (shift (open_tag h)) (search rest).
Proof.
  intros Hh H. rewrite search_eq, H. rewrite open_tag_cons.
  rewrite search_inert.
  2:{ apply plain_inert. rewrite !plain_app. rewrite (plain_hex _ Hh). reflexivity. }
  destruct (search rest) as [f|]; [|reflexivity].
  reflexivity.
Qed.

Lemma search_locate m : forall r,
  well_formed m = true ->
  search (serialize m ++ r) =
  match locate m with
  | Some f => Some (extend f r)
  | None => option_map (shift (serialize m)) (search r)
  end.
Proof.
  induction m as [|t k IH|h b IHb k _]; intros r Hw.
  - simpl. destruct (search r) as [[]|]; reflexivity.
  - simpl in *. apply andb_prop in Hw as [Ht Hk].
    rewrite <- app_assoc, search_inert, IH by assumption.
    destruct (locate k) as [f|]; simpl.
    + reflexivity.
    + destruct (search r) as [f|]; simpl; [|reflexivity].
      unfold shift. simpl. now rewrite app_assoc.
  - simpl in Hw. apply andb_prop in Hw as [Hw Hk]. apply andb_prop in Hw as [Hh Hb].
    cbn [serialize locate]. rewrite <- !app_assoc.
    destruct (flat b) eqn:Hf.
    + rewrite search_eq, INNERMOST_COLOR_RE_at_tag by assumption.
      rewrite scan_text_inert by now apply inert_flat.
      rewrite scan_text_close. simpl. rewrite app_nil_r. reflexivity.
    + rewrite search_skip_open_tag; [|assumption|].
      2:{ rewrite INNERMOST_COLOR_RE_at_tag by assumption.
          now rewrite scan_text_nested. }
      rewrite IHb by assumption.
      destruct (locate b) as [f|] eqn:E; [|now apply locate_nested in Hf].
      simpl. unfold shift, extend. simpl. rewrite <- !app_assoc. reflexivity.
Qed.

Lemma search_serialize m :
  well_formed m = true -> search (serialize m) = locate m.
Proof.
  intros H. rewrite <- (app_nil_r (serialize m)), search_locate by assumption.
  destruct (locate m) as [[]|]; [|reflexivity].
  unfold extend. simpl. now rewrite app_nil_r.
Qed.

#[local] Arguments sgr_open : simpl never.
#[local] Arguments sgr_reset : simpl never.
#[local] Arguments open_tag : simpl never.

Lemma resolve_serialize m : forall f,
  locate m = Some f ->
  serialize (resolve m)
  = before f ++ (sgr_open (hex f) ++ text f ++ sgr_reset) ++ after f.
Proof.
  induction m as [|t k IH|h b IHb k _]; cbn [locate resolve serialize];
    intros f H; try discriminate.
  - destruct (locate k) as [f'|]; [|discriminate]. injection H as <-.
    unfold shift; cbn [before hex text after serialize].
    rewrite (IH _ eq_refl). now rewrite <- !app_assoc.
  - destruct (flat b).
    + injection H as <-. cbn [before hex text after serialize app].
      now rewrite <- !app_assoc.
    + destruct (locate b) as [f'|]; [|discriminate]. injection H as <-.
      unfold shift, extend; cbn [before hex text after serialize].
      rewrite (IHb _ eq_refl). now rewrite <- !app_assoc.
Qed.

Lemma resolve_well_formed m : well_formed m = true -> well_formed (resolve m) = true.
Proof.
  induction m as [|t k IH|h b IHb k _]; simpl; intros H; auto.
  - apply andb_prop in H as [Ht Hk]. now rewrite Ht, IH.
  - apply andb_prop in H as [H Hk]. apply andb_prop in H as [Hh Hb].
    destruct (flat b) eqn:Hf; simpl.
    + rewrite Hk, andb_true_r.
      apply inert_app; [apply inert_sgr_open|].
      apply inert_app; [now apply inert_flat|apply inert_sgr_reset].
    + now rewrite Hh, IHb, Hk.
Qed.

Lemma resolve_stack_render m : stack_render (resolve m) = stack_render m.
Proof.
  induction m as [|t k IH|h b IHb k _]; simpl; auto.
  - now rewrite IH.
  - destruct (flat b) eqn:Hf; simpl.
    + rewrite serialize_flat by assumption. now rewrite <- !app_assoc.
    + now rewrite IHb.
Qed.

Lemma resolve_spans m : flat m = false -> S (spans (resolve m)) = spans m.
Proof.
  induction m as [|t k IH|h b IHb k _]; simpl; intros H; try discriminate; auto.
  destruct (flat b) eqn:Hf; simpl.
  - clear IHb. f_equal. assert (spans b = 0%nat) as ->; [|reflexivity].
    clear -Hf. induction b; simpl in *; auto; discriminate.
  - rewrite <- IHb by reflexivity. reflexivity.
Qed.

Lemma render_markup : forall n m,
  (spans m <= n)%nat -> well_formed m = true ->
  _render_all_colors_iteratively (serialize m) = Some (Ok (stack_render m)).
Proof.
  induction n as [|n IH]; intros m Hn Hw.
  - assert (Hf : flat m = true).
    { destruct (flat m) eqn:E; [reflexivity|]. apply resolve_spans in E. lia. }
    rewrite <- serialize_flat by assumption. apply render_no_match.
    rewrite search_serialize by assumption. now apply locate_flat.
  - destruct (flat m) eqn:Hf.
    + rewrite <- serialize_flat by assumption. apply render_no_match.
      rewrite search_serialize by assumption. now apply locate_flat.
    + destruct (locate m) as [f|] eqn:E; [|now apply locate_nested in Hf].
      apply (@render_step _ f); [now rewrite search_serialize|].
      rewrite <- (resolve_serialize _ E), <- resolve_stack_render.
      apply IH; [|now apply resolve_well_formed].
      apply resolve_spans in Hf. lia.
Qed.

(** *** Font tags *)

Section Blind.

(** A matcher that needs ["[f"] or ["[/f"] to match. *)
Variable m : str -> option nat.
Hypothesis m_inert : forall c s b, head_ok (c :: s) = true -> m ((c :: s) ++ b) = None.
Hypothesis m_color : forall s, m (ch "[" :: ch "c" :: s) = None.
Hypothesis m_close : forall s, m (ch "[" :: ch "/" :: ch "c" :: s) = None.

Lemma remove_matches_keep c s :
  m (c :: s) = None -> remove_matches m 0 (c :: s) = c :: remove_matches m 0 s.
Proof. intros H. cbn [remove_matches]. now rewrite H. Qed.

Lemma remove_matches_inert a : forall b,
  inert a = true -> remove_matches m 0 (a ++ b) = a ++ remove_matches m 0 b.
Proof.
  induction a as [|c a IH]; intros b H; [reflexivity|].
  rewrite inert_cons in H. apply andb_prop in H as [Hh Ha].
  change ((c :: a) ++ b) with (c :: (a ++ b)).
  rewrite remove_matches_keep by (now apply (m_inert c a b)).
  now rewrite IH.
Qed.

Lemma remove_matches_open_tag h b :
  hex_ok h = true ->
  remove_matches m 0 (open_tag h ++ b) = open_tag h ++ remove_matches m 0 b.
Proof.
  intros Hh. rewrite !open_tag_cons.
  rewrite remove_matches_keep by apply m_color.
  rewrite remove_matches_inert; [reflexivity|].
  apply plain_inert. rewrite !plain_app. rewrite (plain_hex _ Hh). reflexivity.
Qed.

Lemma remove_matches_close_tag b :
  remove_matches m 0 (lit "[/color]" ++ b) = lit "[/color]" ++ remove_matches m 0 b.
Proof.
  change (lit "[/color]" ++ b) with (ch "[" :: (lit "/color]" ++ b)).
  rewrite remove_matches_keep by apply m_close.
  now rewrite remove_matches_inert.
Qed.

Lemma remove_matches_markup t : forall b,
  well_formed t = true ->
  remove_matches m 0 (serialize t ++ b) = serialize t ++ remove_matches m 0 b.
Proof.
  induction t as [|x k IH|h x IHx k IHk]; cbn [serialize well_formed]; intros b Hw.
  - reflexivity.
  - apply andb_prop in Hw as [Ht Hk].
    now rewrite <- !app_assoc, remove_matches_inert, IH.
  - apply andb_prop in Hw as [Hw Hk]. apply andb_prop in Hw as [Hh Hx].
    rewrite <- !app_assoc.
    now rewrite remove_matches_open_tag, IHx, remove_matches_close_tag, IHk.
Qed.

End Blind.

Lemma FONT_OPEN_RE_inert c s b : head_ok (c :: s) = true -> FONT_OPEN_RE ((c :: s) ++ b) = None.
Proof. intros H. unfold FONT_OPEN_RE. now rewrite inert_no_font_open. Qed.

Lemma font_close_inert c s b :
  head_ok (c :: s) = true -> literal_match (lit "[/font]") ((c :: s) ++ b) = None.
Proof. intros H. unfold literal_match, starts_with. now rewrite inert_no_font_close. Qed.

Lemma FONT_OPEN_RE_color s : FONT_OPEN_RE (ch "[" :: ch "c" :: s) = None.
Proof. reflexivity. Qed.

Lemma FONT_OPEN_RE_close s : FONT_OPEN_RE (ch "[" :: ch "/" :: ch "c" :: s) = None.
Proof. reflexivity. Qed.

Lemma font_close_color s : literal_match (lit "[/font]") (ch "[" :: ch "c" :: s) = None.
Proof. reflexivity. Qed.

Lemma font_close_close s :
  literal_match (lit "[/font]") (ch "[" :: ch "/" :: ch "c" :: s) = None.
Proof. reflexivity. Qed.

Lemma remove_font_open_inert a b :
  inert a = true ->
  remove_matches FONT_OPEN_RE 0 (a ++ b) = a ++ remove_matches FONT_OPEN_RE 0 b.
Proof. apply remove_matches_inert, FONT_OPEN_RE_inert. Qed.

Lemma remove_font_close_inert a b :
  inert a = true ->
  remove_matches (literal_match (lit "[/font]")) 0 (a ++ b)
  = a ++ remove_matches (literal_match (lit "[/font]")) 0 b.
Proof. apply remove_matches_inert, font_close_inert. Qed.

Lemma remove_font_open_markup t b :
  well_formed t = true ->
  remove_matches FONT_OPEN_RE 0 (serialize t ++ b)
  = serialize t ++ remove_matches FONT_OPEN_RE 0 b.
Proof.
  apply remove_matches_markup;
    auto using FONT_OPEN_RE_inert, FONT_OPEN_RE_color, FONT_OPEN_RE_close.
Qed.

Lemma remove_font_close_markup t b :
  well_formed t = true ->
  remove_matches (literal_match (lit "[/font]")) 0 (serialize t ++ b)
  = serialize t ++ remove_matches (literal_match (lit "[/font]")) 0 b.
Proof.
  apply remove_matches_markup;
    auto using font_close_inert, font_close_color, font_close_close.
Qed.

(** Font stripping leaves well-nested colour markup alone. *)
Lemma strip_font_markup t : well_formed t = true -> strip_font (serialize t) = serialize t.
Proof.
  intros H. unfold strip_font.
  rewrite <- (app_nil_r (serialize t)).
  rewrite remove_font_open_markup by assumption. cbn [remove_matches].
  rewrite remove_font_close_markup by assumption. reflexivity.
Qed.

Lemma strip_font_inert a : inert a = true -> strip_font a = a.
Proof.
  intros H. pose proof (strip_font_markup (Text a Stop)) as E.
  cbn [serialize well_formed] in E. rewrite app_nil_r, H in E. now apply E.
Qed.

(** *** Unpaired tags *)




Section Tail.

(** A tail that starts with ["["] and holds no closing tag. *)
Variable s0 : str.
#[local] Notation "'tail'" := (ch "[" :: s0).
Hypothesis no_close : count_close tail = 0%nat.










End Tail.





Lemma render_total s : exists r, _render_all_colors_iteratively s = Some (Ok r).
Proof. apply render_loop_total. lia. Qed.

End MarkupTheory.

(** ** The renderer: claims *)

Module RendererClaims.
Import Markup MarkupTheory.

(** C4. The pattern [#[0-9A-Fa-f]{6,8}] also takes seven digits: the tag
    ["[color=#1234567]"] is recognised, its last six digits give the colour
    (35, 69, 103), and the text is wrapped in an escape sequence instead of
    passing through as literal characters. *)
Theorem seven_digit_tag_is_rendered :
  search (lit "[color=#1234567]x[/color]")
    = Some (Found [] (lit "#1234567") (lit "x") [])
  /\ pretty_print_markup (lit "[color=#1234567]x[/color]")
    = Some (Ok (ESC :: lit "[38;2;35;69;103mx" ++ ESC :: lit "[0m")).
Proof. split; reflexivity. Qed.

(** C5. On well-nested markup (inert text between tags, colours of six to
    eight hex digits) every iteration of the loop matches the leftmost
    innermost span, and the renderer returns the rendering by a stack
    discipline: each span becomes its escape sequence, its rendered body
    and a reset, properly nested.  In particular the triple nesting of the
    tests renders to three nested escape/reset pairs. *)
Theorem nested_colors_resolve_innermost_first :
  (forall m, well_formed m = true ->
     search (serialize m) = locate m
     /\ pretty_print_markup (serialize m) = Some (Ok (stack_render m)))
  /\ pretty_print_markup
       (lit "[color=#FF0000]R [color=#00FF00]G [color=#0000FF]B[/color] G[/color] R[/color]")
     = Some (Ok (ESC :: lit "[38;2;255;0;0mR " ++ ESC :: lit "[38;2;0;255;0mG "
                 ++ ESC :: lit "[38;2;0;0;255mB" ++ ESC :: lit "[0m G"
                 ++ ESC :: lit "[0m R" ++ ESC :: lit "[0m")).
Proof.
  split; [|reflexivity].
  intros m H. split; [now apply search_serialize|].
  unfold pretty_print_markup. rewrite strip_font_markup by assumption.
  now apply (render_markup (n := spans m)).
Qed.

Lemma nested_colors_resolve_innermost_first_witness :
  search (serialize triple)
    = Some (Found (lit "[color=#FF0000]R [color=#00FF00]G ") (lit "#0000FF") (lit "B")
                  (lit " G[/color] R[/color]"))
  /\ pretty_print_markup (serialize triple) = Some (Ok (stack_render triple)).
Proof.
  exact (proj1 nested_colors_resolve_innermost_first triple eq_refl).
Defined.




(** C8. The renderer is total.  Every iteration of the loop finds the colour
    of its match well formed, so it cannot raise, and leaves strictly fewer
    ["[/color]"] than it found; with one unit of fuel more than the number
    of ["[/color]"] the loop ends, and the renderer returns a string. *)
Theorem renderer_is_total :
  (forall s,
     match search s with
     | None => render_loop 1 s = Some (Ok s)
     | Some f =>
         exists colored,
           ansi_colored_text (hex f) (text f) = Ok colored
           /\ (count_close (before f ++ colored ++ after f) < count_close s)%nat
     end)
  /\ (forall s, exists r,
        render_loop (S (count_close s)) s = Some (Ok r))
  /\ (forall markup, exists r, pretty_print_markup markup = Some (Ok r)).
Proof.
  split; [|split].
  - intros s. destruct (search s) as [f|] eqn:E.
    + destruct (replacement_removes_a_close _ E) as [Ha Hlt]. eauto.
    + simpl. now rewrite E.
  - intros s. apply render_loop_total. lia.
  - intros markup. apply render_total.
Qed.

End RendererClaims.

Module ProgressTheory.
Import Progress.

#[local] Arguments N.eqb : simpl never.
#[local] Arguments ch : simpl never.
#[local] Arguments lit : simpl never.

Section Facts.

Variable color : Type.
Variable rgb2hex : color -> str.
Variable fl : Q -> Q.
Variable config : PBarConfig.t color.

#[local] Notation "'nth_step'" := (range_item config).

Lemma truediv_ok a b : b <> 0%Z -> truediv fl a b = ret (quotient fl a b).
Proof.
  intros H. unfold truediv. destruct (Z.eqb_spec b 0); [contradiction|reflexivity].
Qed.

Lemma mod_divs step : (0 <= step mod divs < 8)%Z.
Proof. apply (Z.mod_pos_bound step 8). lia. Qed.

Lemma item_substeps i :
  (0 <= i < 8)%Z -> @item N substeps i = ret (List.nth (Z.to_nat i) substeps 0%N).
Proof.
  intros H. unfold item.
  assert (Hn : (Z.to_nat i < 8)%nat) by lia.
  destruct (Z.to_nat i) as [|[|[|[|[|[|[|[|n]]]]]]]]; try reflexivity; lia.
Qed.

Lemma max_threshold_pred_nonzero : (max_threshold config - 1 <> 0)%Z.
Proof. unfold max_threshold. change divs with 8%Z. lia. Qed.

Lemma bar_of_nonempty step : step <> (-1)%Z -> exists c t, bar_of step = c :: t.
Proof.
  intros H. unfold bar_of. destruct (Z.eqb_spec step (-1)); [contradiction|].
  destruct (rep full_block (Z.max (step / divs) 0)); simpl; eauto.
Qed.

(** The loop body, when the length is not zero: it raises nothing. *)
Lemma body_eq step :
  PBarConfig.length config <> 0%Z ->
  body rgb2hex fl config step
  = (calls_of fl config step, Ok (cond_of rgb2hex fl config step)).
Proof.
  intros HL.
  assert (HM : (PBarConfig.length config * divs <> 0)%Z) by (change divs with 8%Z; lia).
  pose proof max_threshold_pred_nonzero as HM1.
  unfold body, calls_of, cond_of, text_of, wrap.
  rewrite !(truediv_ok _ HM).
  fold (number_of fl config step). fold (field_of fl config step).
  fold (fill_of fl config step).
  change (@last_item N substeps) with (@ret N full_block).
  rewrite (item_substeps (mod_divs step)).
  unfold end_of, num_after_of.
  destruct (Z.eqb_spec step (-1)) as [->|Hs].
  - unfold bar_of. cbn [Z.eqb Pos.eqb].
    destruct (PBarConfig.cmap config) as [f|].
    + rewrite !(truediv_ok _ HM1). cbn [bind ret call app].
      destruct (rep full_block _ ++ repeat (ch "0") _); reflexivity.
    + cbn [bind ret call app].
      destruct (rep full_block _ ++ repeat (ch "0") _); reflexivity.
  - destruct (bar_of_nonempty Hs) as (c & t & Hb).
    unfold bar_of in *. destruct (Z.eqb_spec step (-1)); [contradiction|].
    destruct (PBarConfig.cmap config) as [f|].
    + rewrite !(truediv_ok _ HM1). cbn [bind ret call app]. rewrite Hb.
      destruct (rep full_block _ ++ repeat (ch "0") _); reflexivity.
    + cbn [bind ret call app]. rewrite Hb.
      destruct (rep full_block _ ++ repeat (ch "0") _); reflexivity.
Qed.

Lemma for_each_body (l : list Z) :
  PBarConfig.length config <> 0%Z ->
  for_each l (body rgb2hex fl config)
  = (List.flat_map (calls_of fl config) l, Ok (List.map (cond_of rgb2hex fl config) l)).
Proof.
  intros HL. induction l as [|s l IH]; [reflexivity|].
  cbn [for_each flat_map List.map]. rewrite body_eq by assumption.
  cbn [bind]. rewrite IH. cbn [bind ret]. now rewrite app_nil_r.
Qed.

(** *** The steps *)

Lemma last_item_snoc {A} (l : list A) (a : A) : last_item (l ++ [a]) = ret a.
Proof. unfold last_item. now rewrite rev_app_distr. Qed.

Lemma steps_valid :
  (1 <= PBarConfig.length config)%Z -> (1 <= PBarConfig.step_size config)%Z ->
  exists j,
    steps config = ret (List.map nth_step (List.seq 0 (S j)) ++ [(max_threshold config - 1)%Z])
    /\ (nth_step j < max_threshold config - 1)%Z.
Proof.
  intros HL HS. unfold steps, range.
  set (M := max_threshold config). set (st := PBarConfig.step_size config) in *.
  assert (HM : (8 <= M)%Z) by (unfold M, max_threshold; change divs with 8%Z; lia).
  destruct (Z.eqb_spec st 0); [lia|].
  destruct (Z.ltb_spec 0 st); [|lia].
  replace (M - -1 + st - 1)%Z with (M + 1 * st)%Z by lia.
  rewrite Z.div_add by lia.
  assert (Hq : (0 <= M / st)%Z) by (apply Z.div_pos; lia).
  replace (Z.to_nat (M / st + 1)) with (S (Z.to_nat (M / st))) by lia.
  set (k := Z.to_nat (M / st)).
  fold nth_step. change (fun i : nat => (-1 + Z.of_nat i * st)%Z) with nth_step.
  rewrite seq_S, map_app. cbn [List.map Nat.add bind ret app].
  rewrite last_item_snoc. cbn [bind ret app].
  assert (Hk : nth_step k = (-1 + st * (M / st))%Z) by (unfold range_item, k; fold st; lia).
  pose proof (Z.mul_div_le M st ltac:(lia)) as Hle.
  destruct (Z.ltb_spec (nth_step k) (M - 1)) as [Hlt|Hge].
  - exists k. rewrite seq_S, map_app. cbn [List.map Nat.add]. split; [reflexivity|assumption].
  - assert (Hk' : nth_step k = (M - 1)%Z) by lia.
    destruct k as [|k'] eqn:Ek.
    + unfold range_item in Hk'. lia.
    + exists k'. rewrite Hk'. split; [reflexivity|].
      unfold range_item in *. fold st in Hk' |- *. nia.
Qed.

Lemma set_comparator_first c d l :
  set_comparator 0 c (d :: l) = ret (with_comparator c d :: l).
Proof. reflexivity. Qed.

Lemma set_comparator_last c d l :
  set_comparator (List.length (l ++ [d]) - 1) c (l ++ [d])
  = ret (l ++ [with_comparator c d]).
Proof.
  unfold set_comparator. rewrite length_app. simpl List.length.
  replace (List.length l + 1 - 1)%nat with (List.length l) by lia.
  rewrite nth_error_app2, Nat.sub_diag by lia. cbn [nth_error].
  rewrite firstn_app, firstn_all, Nat.sub_diag. cbn [firstn]. rewrite app_nil_r.
  replace (S (List.length l)) with (List.length (l ++ [d])) by (rewrite length_app; simpl; lia).
  now rewrite skipn_all.
Qed.

Lemma nth_step_0 : nth_step 0 = (-1)%Z.
Proof. unfold range_item. lia. Qed.

(** What a valid configuration generates: the zero-progress condition under
    ["<="], one condition under ["="] for each further step below the last,
    and the condition of step [max_threshold - 1] under [">="]. *)
Lemma generate_valid :
  (1 <= PBarConfig.length config)%Z -> (1 <= PBarConfig.step_size config)%Z ->
  exists j,
    let mid := List.map nth_step (List.seq 1 j) in
    let last := (max_threshold config - 1)%Z in
    generate rgb2hex fl config
    = (List.flat_map (calls_of fl config) ((-1)%Z :: mid ++ [last]),
       Ok (with_comparator (lit "<=") (cond_of rgb2hex fl config (-1))
             :: List.map (cond_of rgb2hex fl config) mid
             ++ [with_comparator (lit ">=") (cond_of rgb2hex fl config last)]))
    /\ (nth_step j < last)%Z.
Proof.
  intros HL HS. destruct (steps_valid HL HS) as (j & Hsteps & Hj).
  exists j. cbv zeta. split; [|assumption].
  unfold generate. rewrite Hsteps. cbn [bind ret app].
  rewrite for_each_body by lia. cbn [bind ret app].
  cbn [seq List.map]. rewrite nth_step_0.
  rewrite map_app. cbn [List.map app].
  rewrite set_comparator_first. cbn [bind ret app].
  rewrite app_comm_cons, set_comparator_last. cbn [ret].
  now rewrite !app_nil_r.
Qed.

Lemma nth_step_mono i j :
  (1 <= PBarConfig.step_size config)%Z -> (i < j)%nat -> (nth_step i < nth_step j)%Z.
Proof. intros HS H. unfold range_item. nia. Qed.

Lemma increasing_steps (g : Z -> Z) x : forall n a,
  (1 <= PBarConfig.step_size config)%Z ->
  (forall u v, (u < v)%Z -> (g u < g v)%Z) ->
  (forall i, (i < a + n)%nat -> (g (nth_step i) < x)%Z) ->
  increasing (List.map g (List.map nth_step (List.seq a n)) ++ [x]).
Proof.
  induction n as [|n IH]; intros a HS Hg Hx; [simpl; auto|].
  cbn [seq List.map app]. split.
  - destruct n as [|n]; cbn [seq List.map app].
    + apply Hx. lia.
    + apply Hg, nth_step_mono; [assumption|lia].
  - apply IH; auto. intros i Hi. apply Hx. lia.
Qed.

(** *** Invalid configurations *)

Lemma generate_step_zero :
  PBarConfig.step_size config = 0%Z ->
  generate_pbar_conditions rgb2hex fl config = Raise ValueError.
Proof.
  intros H. unfold generate_pbar_conditions, generate, steps, range. now rewrite H.
Qed.

Lemma range_empty start stop step :
  step <> 0%Z ->
  ((if (0 <? step)%Z then (stop - start + step - 1) / step
    else (start - stop - step - 1) / (- step)) <= 0)%Z ->
  range start stop step = ret [].
Proof.
  intros H0 H. unfold range. destruct (Z.eqb_spec step 0); [contradiction|].
  destruct (0 <? step)%Z;
    (destruct (Z.to_nat _) eqn:E; [reflexivity|lia]).
Qed.

Lemma generate_no_steps :
  (1 <= PBarConfig.step_size config /\ PBarConfig.length config < 0
   \/ PBarConfig.step_size config < 0 /\ 0 <= PBarConfig.length config)%Z ->
  generate_pbar_conditions rgb2hex fl config = Raise IndexError.
Proof.
  intros H. unfold generate_pbar_conditions, generate, steps.
  rewrite range_empty; [reflexivity|lia|].
  unfold max_threshold. change divs with 8%Z.
  set (L := PBarConfig.length config) in *. set (st := PBarConfig.step_size config) in *.
  destruct H as [[HS HL]|[HS HL]].
  - destruct (Z.ltb_spec 0 st); [|lia].
    assert ((L * 8 - -1 + st - 1) / st < 1)%Z; [|lia].
    apply Z.div_lt_upper_bound; lia.
  - destruct (Z.ltb_spec 0 st); [lia|].
    assert ((-1 - L * 8 - st - 1) / - st < 1)%Z; [|lia].
    apply Z.div_lt_upper_bound; lia.
Qed.

Lemma generate_length_zero :
  (1 <= PBarConfig.step_size config)%Z -> PBarConfig.length config = 0%Z ->
  generate_pbar_conditions rgb2hex fl config = Raise ZeroDivisionError.
Proof.
  intros HS HL. unfold generate_pbar_conditions, generate, steps, range, max_threshold.
  rewrite HL. set (st := PBarConfig.step_size config) in *.
  destruct (Z.eqb_spec st 0); [lia|]. destruct (Z.ltb_spec 0 st); [|lia].
  replace (0 * divs - -1 + st - 1)%Z with st by (change divs with 8%Z; lia).
  rewrite Z.div_same by lia. cbn [Z.to_nat Pos.to_nat Pos.iter_op Nat.add seq List.map bind ret app].
  change (-1 + Z.of_nat 0 * st)%Z with (-1)%Z.
  unfold last_item at 1. cbn [rev app bind ret].
  cbn [Z.ltb Z.compare Z.mul Z.sub Z.add Z.opp Z.pos_sub Pos.compare Pos.compare_cont].
  cbn [for_each]. unfold body, max_threshold. rewrite HL.
  destruct (PBarConfig.cmap config) as [f|]; reflexivity.
Qed.

Lemma set_comparator_nonempty c d l :
  exists l' d', set_comparator (List.length (d :: l) - 1) c (d :: l) = ret (l' ++ [d']).
Proof.
  destruct (@exists_last _ (d :: l)) as (l' & d' & ->); [discriminate|].
  rewrite set_comparator_last. eauto.
Qed.

Lemma generate_both_negative :
  (PBarConfig.step_size config < 0)%Z -> (PBarConfig.length config < 0)%Z ->
  exists c cs, generate_pbar_conditions rgb2hex fl config = Ok (c :: cs).
Proof.
  intros HS HL. unfold generate_pbar_conditions, generate, steps, range.
  set (M := max_threshold config). set (st := PBarConfig.step_size config) in *.
  assert (HM : (M <= -8)%Z) by (unfold M, max_threshold; change divs with 8%Z; lia).
  destruct (Z.eqb_spec st 0); [lia|]. destruct (Z.ltb_spec 0 st); [lia|].
  replace (-1 - M - st - 1)%Z with (1 * - st + (- M - 2))%Z by lia.
  rewrite Z.div_add_l by lia.
  assert (Hq : (0 <= (- M - 2) / - st)%Z) by (apply Z.div_pos; lia).
  replace (Z.to_nat (1 + (- M - 2) / - st)) with (S (Z.to_nat ((- M - 2) / - st))) by lia.
  set (k := Z.to_nat ((- M - 2) / - st)).
  rewrite seq_S, map_app. cbn [List.map Nat.add bind ret app].
  rewrite last_item_snoc. cbn [bind ret app].
  pose proof (Z.mul_div_le (- M - 2) (- st) ltac:(lia)) as Hle.
  destruct (Z.ltb_spec (-1 + Z.of_nat k * st) (M - 1)) as [Hlt|_]; [unfold k in Hlt; nia|].
  rewrite for_each_body by lia. cbn [bind ret app].
  rewrite map_app. cbn [List.map].
  destruct (List.map (cond_of rgb2hex fl config) (List.map (fun i : nat => (-1 + Z.of_nat i * st)%Z) (seq 0 k))
              ++ [cond_of rgb2hex fl config (-1 + Z.of_nat k * st)]) as [|d l] eqn:E.
  { now apply app_eq_nil in E as [_ E]. }
  rewrite set_comparator_first. cbn [bind ret app].
  destruct (set_comparator_nonempty (lit ">=") (with_comparator (lit "<=") d) l) as (l' & d' & ->).
  cbn [snd ret]. destruct l'; simpl; eauto.
Qed.

(** *** Floats and the percentage field *)

Lemma rounding_exact : rounding exact.
Proof. split; unfold exact; intros; (assumption || reflexivity). Qed.

Section Rounded.

Hypothesis fl_ok : rounding fl.

Lemma fl_proper x y : x == y -> fl x == fl y.
Proof.
  intros H. apply Qle_antisym; apply (fl_mono fl_ok); lra.
Qed.

Lemma fl_range x hi :
  (hi = 1 \/ hi = 100) -> 0 <= x -> x <= hi -> 0 <= fl x /\ fl x <= hi.
Proof.
  intros Hhi H0 H1.
  pose proof (fl_0 fl_ok). pose proof (fl_1 fl_ok). pose proof (fl_100 fl_ok).
  pose proof (fl_mono fl_ok H0). pose proof (fl_mono fl_ok H1).
  destruct Hhi as [->| ->]; split; lra.
Qed.

Lemma ratio_range a b :
  (0 <= a <= b)%Z -> (0 < b)%Z ->
  0 <= (Z.abs a # Z.to_pos (Z.abs b)) /\ (Z.abs a # Z.to_pos (Z.abs b)) <= 1.
Proof.
  intros Ha Hb. unfold Qle. cbn [Qnum Qden]. rewrite Z.abs_eq by lia.
  rewrite Z.abs_eq by lia. rewrite Z2Pos.id by lia. lia.
Qed.

(** A quotient of [0 <= a <= b] lies in [0, 1]. *)
Lemma quotient_in_unit a b :
  (0 <= a <= b)%Z -> (0 < b)%Z -> in_unit (quotient fl a b).
Proof.
  intros Ha Hb. unfold in_unit, float_value, quotient. cbn [negative magnitude].
  destruct (Z.ltb_spec a 0); [lia|]. destruct (Z.ltb_spec b 0); [lia|].
  cbn [xorb]. destruct (ratio_range Ha Hb). apply fl_range; auto.
Qed.

Lemma quotient_same b :
  (0 < b)%Z -> negative (quotient fl b b) = false /\ magnitude (quotient fl b b) == 1.
Proof.
  intros Hb. unfold quotient. cbn [negative magnitude].
  destruct (Z.ltb_spec b 0); [lia|]. split; [reflexivity|].
  assert (E : (Z.abs b # Z.to_pos (Z.abs b)) == 1).
  { unfold Qeq. cbn [Qnum Qden]. rewrite Z.abs_eq by lia. rewrite Z2Pos.id by lia. lia. }
  pose proof (fl_proper E). pose proof (fl_1 fl_ok). lra.
Qed.


Lemma percentage_full b :
  (0 < b)%Z ->
  negative (times100 fl (quotient fl b b)) = false
  /\ magnitude (times100 fl (quotient fl b b)) == 100.
Proof.
  intros Hb. destruct (quotient_same Hb) as [Hn Hm].
  unfold times100. cbn [negative magnitude]. split; [assumption|].
  assert (E : magnitude (quotient fl b b) * 100 == 100) by lra.
  pose proof (fl_proper E). pose proof (fl_100 fl_ok). lra.
Qed.

End Rounded.

(** *** The formatted percentage *)

Lemma number_chars_uint u : forallb number_char (uint_chars u) = true.
Proof. induction u; simpl; auto. Qed.

Lemma number_chars_dec n : forallb number_char (dec n) = true.
Proof. apply number_chars_uint. Qed.

Lemma number_chars_format x : forallb number_char (format_1f x) = true.
Proof.
  unfold format_1f. rewrite !forallb_app, !number_chars_dec.
  destruct (negative x); reflexivity.
Qed.

Lemma number_char_not_space c : number_char c = true -> is_space c = false.
Proof.
  unfold number_char, is_space.
  change (ch "0") with 48%N. change (ch "9") with 57%N.
  change (ch ".") with 46%N. change (ch "-") with 45%N.
  rewrite !orb_true_iff, !andb_true_iff, !N.leb_le, !N.eqb_eq.
  intros H. rewrite !orb_false_iff, !andb_false_iff, !N.leb_gt, !N.eqb_neq. lia.
Qed.



Lemma lstrip_spaces k s : lstrip (List.repeat (ch " ") k ++ s) = lstrip s.
Proof. induction k; simpl; auto. Qed.

Lemma lstrip_number s :
  forallb number_char s = true -> lstrip (s ++ lit "%") = s ++ lit "%".
Proof.
  destruct s as [|c s]; [reflexivity|]. cbn [forallb app lstrip]. intros H.
  apply andb_prop in H as [Hc _]. now rewrite number_char_not_space.
Qed.

(** Stripping the field leaves the number and the percent sign. *)
Lemma strip_field w num :
  forallb number_char num = true -> strip (pad_left w num ++ lit "%") = num ++ lit "%".
Proof.
  intros H. unfold strip, pad_left. rewrite <- app_assoc, lstrip_spaces.
  rewrite lstrip_number by assumption. rewrite rev_app_distr.
  change (rev (lit "%") ++ rev num) with (ch "%" :: rev num).
  change (lstrip (ch "%" :: rev num)) with (ch "%" :: rev num).
  cbn [rev]. now rewrite rev_involutive.
Qed.

Lemma fill_field w num :
  forallb number_char num = true ->
  (List.length (pad_left w num ++ lit "%")
   - List.length (strip (pad_left w num ++ lit "%")) = w - List.length num)%nat.
Proof.
  intros H. rewrite strip_field by assumption. unfold pad_left.
  rewrite !length_app, repeat_length. lia.
Qed.

Lemma round_half_even_range q bound :
  (0 <= bound)%Z -> 0 <= q -> q <= inject_Z bound ->
  (0 <= round_half_even q <= bound)%Z.
Proof.
  intros Hb H0 H1. unfold round_half_even, Qle, inject_Z in *. cbn [Qnum Qden] in *.
  destruct q as [n d]. cbn [Qnum Qden] in *.
  assert (Hd : (0 < Z.pos d)%Z) by lia.
  pose proof (Z.div_pos n (Z.pos d) ltac:(lia) Hd) as Hk.
  pose proof (Z.mod_pos_bound n (Z.pos d) Hd) as Hr.
  pose proof (Z.div_mod n (Z.pos d) ltac:(lia)) as Hdm.
  assert (Hle : (n / Z.pos d <= bound)%Z) by (apply Z.div_le_upper_bound; lia).
  destruct (Z.compare_spec (2 * (n mod Z.pos d)) (Z.pos d)) as [E|E|E];
    [destruct (Z.even (n / Z.pos d))| |]; try lia;
    (assert (n / Z.pos d <> bound)%Z; [intros Hq; rewrite Hq in Hdm; nia|lia]).
Qed.

Lemma round_half_even_integer q z : q == inject_Z z -> round_half_even q = z.
Proof.
  unfold round_half_even, Qeq, inject_Z. cbn [Qnum Qden]. destruct q as [n d].
  cbn [Qnum Qden]. intros H. replace n with (z * Z.pos d)%Z by lia.
  rewrite Z.div_mul, Z.mod_mul by lia. reflexivity.
Qed.

Lemma dec_length_small n :
  (n <= 100)%N ->
  (1 <= List.length (dec n) <= 3)%nat /\ ((n < 10)%N -> List.length (dec n) = 1%nat).
Proof.
  intros H.
  assert (Hall : forallb (fun k =>
            let len := List.length (dec (N.of_nat k)) in
            (1 <=? len)%nat && (len <=? 3)%nat
            && (negb (k <? 10)%nat || (len =? 1)%nat)) (seq 0 101) = true)
    by (vm_compute; reflexivity).
  rewrite forallb_forall in Hall. specialize (Hall (N.to_nat n)).
  rewrite N2Nat.id in Hall. cbv zeta in Hall.
  rewrite !andb_true_iff, orb_true_iff, negb_true_iff, !Nat.leb_le, Nat.ltb_ge, Nat.eqb_eq in Hall.
  destruct Hall as [[H1 H3] H10]; [apply in_seq; lia|].
  split; [lia|]. intros Hn. destruct H10; [lia|assumption].
Qed.

(** A percentage between 0 and 100 takes three to five characters, and 100
    takes five. *)
Lemma format_1f_length x :
  negative x = false -> 0 <= magnitude x -> magnitude x <= 100 ->
  (3 <= List.length (format_1f x) <= 5)%nat
  /\ (magnitude x == 100 -> List.length (format_1f x) = 5%nat).
Proof.
  intros Hn H0 H1. unfold format_1f. rewrite Hn. cbn [app].
  assert (Hr : (0 <= round_half_even (magnitude x * 10) <= 1000)%Z).
  { apply round_half_even_range; [lia| |]; unfold inject_Z; lra. }
  set (t := round_half_even (magnitude x * 10)) in *.
  assert (Ha : (Z.to_N (t / 10) <= 100)%N).
  { assert (t / 10 <= 100)%Z by (apply Z.div_le_upper_bound; lia).
    assert (0 <= t / 10)%Z by (apply Z.div_pos; lia). lia. }
  assert (Hb : (Z.to_N (t mod 10) < 10)%N).
  { pose proof (Z.mod_pos_bound t 10 ltac:(lia)). lia. }
  destruct (dec_length_small Ha) as [Hla _].
  destruct (dec_length_small (n := Z.to_N (t mod 10))) as [_ Hlb]; [lia|].
  rewrite !length_app, (Hlb Hb). simpl List.length. split; [lia|].
  intros E. assert (Et : t = 1000%Z).
  { apply round_half_even_integer. unfold inject_Z. lra. }
  rewrite Et. reflexivity.
Qed.

Section Layout.

Hypothesis fl_ok : rounding fl.

(** *** The pieces of a condition's text *)


Lemma number_of_full :
  (1 <= PBarConfig.length config)%Z ->
  List.length (number_of fl config (max_threshold config - 1)) = 5%nat.
Proof.
  intros HL. unfold number_of, max_threshold.
  replace (PBarConfig.length config * divs - 1 + 1)%Z
    with (PBarConfig.length config * divs)%Z by lia.
  assert (Hb : (0 < PBarConfig.length config * divs)%Z) by (change divs with 8%Z; lia).
  destruct (percentage_full fl_ok Hb) as [Hn Hm].
  apply format_1f_length; auto; lra.
Qed.

Lemma fill_of_eq step :
  fill_of fl config step = (5 - List.length (number_of fl config step))%nat.
Proof. unfold fill_of, field_of. apply fill_field, number_chars_format. Qed.

Lemma strip_field_of step :
  strip (field_of fl config step) = number_of fl config step ++ lit "%".
Proof. unfold field_of. apply strip_field, number_chars_format. Qed.

(** The last step leaves nothing after the bar: no block, no filler. *)
Lemma end_of_last :
  (1 <= PBarConfig.length config)%Z ->
  end_of fl config (max_threshold config - 1) = [].
Proof.
  intros HL. unfold end_of. rewrite fill_of_eq, number_of_full by assumption.
  unfold num_after_of, max_threshold, rep. change divs with 8%Z.
  destruct (Z.eqb_spec (PBarConfig.length config * 8 - 1) (-1)); [lia|].
  replace (PBarConfig.length config * 8 - 1)%Z
    with (7 + (PBarConfig.length config - 1) * 8)%Z by lia.
  rewrite Z.div_add by lia. change (7 / 8)%Z with 0%Z.
  replace (Z.to_nat _) with 0%nat by lia. reflexivity.
Qed.



(** *** The arguments of the colour mapper *)

Lemma calls_of_in_unit f step :
  PBarConfig.cmap config = Some f ->
  (1 <= PBarConfig.length config)%Z ->
  (0 <= step < max_threshold config - 1)%Z ->
  Forall in_unit (calls_of fl config step).
Proof.
  intros Hf HL Hs. unfold calls_of. rewrite Hf.
  constructor; [apply (quotient_in_unit fl_ok); lia|].
  destruct (end_of fl config step); constructor; [|constructor].
  apply (quotient_in_unit fl_ok); lia.
Qed.

Lemma calls_of_last f :
  PBarConfig.cmap config = Some f ->
  (1 <= PBarConfig.length config)%Z ->
  Forall in_unit (calls_of fl config (max_threshold config - 1)).
Proof.
  intros Hf HL. unfold calls_of. rewrite Hf, end_of_last by assumption.
  assert (8 <= max_threshold config)%Z by (unfold max_threshold; change divs with 8%Z; lia).
  constructor; [apply (quotient_in_unit fl_ok); lia|constructor].
Qed.

Lemma calls_of_first f :
  PBarConfig.cmap config = Some f ->
  (1 <= PBarConfig.length config)%Z ->
  exists rest,
    calls_of fl config (-1) = quotient fl (-1) (max_threshold config - 1) :: rest
    /\ Forall in_unit rest.
Proof.
  intros Hf HL. unfold calls_of. rewrite Hf.
  assert (8 <= max_threshold config)%Z by (unfold max_threshold; change divs with 8%Z; lia).
  eexists. split; [reflexivity|].
  destruct (end_of fl config (-1)); constructor; [|constructor].
  apply (quotient_in_unit fl_ok); lia.
Qed.


Lemma mid_range j s :
  (1 <= PBarConfig.step_size config)%Z ->
  (nth_step j < max_threshold config - 1)%Z ->
  In s (List.map nth_step (seq 1 j)) ->
  (0 <= s < max_threshold config - 1)%Z.
Proof.
  intros HS Hj Hin. apply in_map_iff in Hin as (i & <- & Hi). apply in_seq in Hi.
  assert (Hij : (i = j \/ i < j)%nat) by lia.
  split; [unfold range_item; nia|].
  destruct Hij as [->|Hij]; [assumption|].
  pose proof (nth_step_mono HS Hij). lia.
Qed.

End Layout.

End Facts.
End ProgressTheory.

(** ** The generator: claims *)

Module GeneratorClaims.
Import Progress ProgressTheory.

(** C1, as stated, fails: the last condition of the configuration of the
    tests has threshold 80, not 79. *)
Lemma last_threshold_of_test_config :
  last_threshold (generate_pbar_conditions same exact test_config) = Some 80%Z
  /\ last_threshold (generate_pbar_conditions same exact test_config)
     <> Some (10 * 8 - 1)%Z.
Proof. split; [vm_compute; reflexivity|vm_compute; discriminate]. Qed.

(** C1, amended: for [length >= 1] and [step_size >= 1] the last step is
    [length * 8 - 1], and the last condition returned has the threshold
    [length * 8], one more, under the comparator [">="]. *)
Theorem last_threshold_is_max_threshold
  (color : Type) (rgb2hex : color -> str) (fl : Q -> Q) (config : PBarConfig.t color) :
  (1 <= PBarConfig.length config)%Z -> (1 <= PBarConfig.step_size config)%Z ->
  exists cs last,
    generate_pbar_conditions rgb2hex fl config = Ok (cs ++ [last])
    /\ constant last = (PBarConfig.length config * 8)%Z
    /\ comparator last = lit ">=".
Proof.
  intros HL HS. destruct (@generate_valid _ rgb2hex fl config HL HS) as (j & Hg & _).
  cbv zeta in Hg. unfold generate_pbar_conditions. rewrite Hg. cbn [snd].
  eexists (_ :: _), _. split; [reflexivity|]. split; [|reflexivity].
  cbn [with_comparator cond_of constant]. unfold max_threshold. change divs with 8%Z. lia.
Qed.

Lemma last_threshold_is_max_threshold_witness :
  exists cs last,
    generate_pbar_conditions same exact test_config = Ok (cs ++ [last])
    /\ constant last = (10 * 8)%Z
    /\ comparator last = lit ">=".
Proof.
  apply (@last_threshold_is_max_threshold str same exact test_config); simpl; lia.
Defined.

(** C2. For [length >= 1] and [step_size >= 1] the generator returns a list
    with a first and a last condition: the first has threshold 0 under
    ["<="], the last is under [">="], every condition between them is under
    ["="], and the thresholds are strictly increasing.  The configuration of
    the tests (length 10, step 1) gives 81 conditions. *)
Theorem conditions_are_ordered
  (color : Type) (rgb2hex : color -> str) (fl : Q -> Q) (config : PBarConfig.t color) :
  (1 <= PBarConfig.length config)%Z -> (1 <= PBarConfig.step_size config)%Z ->
  (exists first middle last,
     generate_pbar_conditions rgb2hex fl config = Ok (first :: middle ++ [last])
     /\ comparator first = lit "<=" /\ constant first = 0%Z
     /\ Forall (fun c => comparator c = lit "=") middle
     /\ comparator last = lit ">="
     /\ increasing (List.map constant (first :: middle ++ [last])))
  /\ (exists cs, generate_pbar_conditions same exact test_config = Ok cs
                 /\ List.length cs = 81%nat).
Proof.
  intros HL HS. split.
  - destruct (@generate_valid _ rgb2hex fl config HL HS) as (j & Hg & Hj).
    cbv zeta in Hg. unfold generate_pbar_conditions. rewrite Hg. cbn [snd].
    do 3 eexists. split; [reflexivity|].
    split; [reflexivity|]. split; [reflexivity|].
    split; [|split; [reflexivity|]].
    + apply Forall_forall. intros c Hc. apply in_map_iff in Hc as (s & <- & _). reflexivity.
    + cbn [List.map]. rewrite map_app, map_map. cbn [List.map with_comparator cond_of constant].
      rewrite <- (nth_step_0 config).
      change (range_item config 0 + 1 :: List.map (fun x => (x + 1)%Z) (List.map (range_item config) (seq 1 j))
                ++ [(max_threshold config - 1 + 1)%Z])%Z
        with (List.map (fun x => (x + 1)%Z) (List.map (range_item config) (seq 0 (S j)))
                ++ [(max_threshold config - 1 + 1)%Z]).
      apply increasing_steps; [assumption|intros; lia|].
      intros i Hi. assert (Hij : (i = j \/ i < j)%nat) by lia.
      destruct Hij as [->|Hij]; [lia|].
      pose proof (nth_step_mono config HS Hij). lia.
  - eexists. split; [vm_compute; reflexivity|reflexivity].
Qed.

Lemma conditions_are_ordered_witness :
  exists first middle last,
    generate_pbar_conditions same exact test_config = Ok (first :: middle ++ [last])
    /\ comparator first = lit "<=" /\ constant first = 0%Z
    /\ Forall (fun c => comparator c = lit "=") middle
    /\ comparator last = lit ">="
    /\ increasing (List.map constant (first :: middle ++ [last])).
Proof.
  apply (@conditions_are_ordered str same exact test_config); simpl; lia.
Defined.

(** C10, as stated, fails for a negative length with a negative step: the
    step range is then not empty, and the generator returns seven conditions
    for length -1 and step -1 instead of raising [IndexError]. *)
Lemma negative_length_and_step_return :
  List.map constant
    (match generate_pbar_conditions same exact (config_of [] None (-1) (-1)) with
     | Ok cs => cs
     | Raise _ => []
     end) = [0; -1; -2; -3; -4; -5; -6]%Z
  /\ generate_pbar_conditions same exact (config_of [] None (-1) (-1)) <> Raise IndexError.
Proof. split; [vm_compute; reflexivity|vm_compute; discriminate]. Qed.

(** C10, amended: the generator never returns an empty list and has no
    configuration error of its own.  A step of 0 raises [ValueError] from the
    range, whatever the length.  With a step of at least 1, length 0 raises
    [ZeroDivisionError] and a negative length raises [IndexError]; a
    negative step with a length of at least 0 raises [IndexError]; a
    negative step with a negative length raises nothing and returns a list
    that is not empty. *)
Theorem invalid_configurations
  (color : Type) (rgb2hex : color -> str) (fl : Q -> Q) (config : PBarConfig.t color) :
  generate_pbar_conditions rgb2hex fl config <> Ok []
  /\ (PBarConfig.step_size config = 0 ->
      generate_pbar_conditions rgb2hex fl config = Raise ValueError)%Z
  /\ (1 <= PBarConfig.step_size config -> PBarConfig.length config = 0 ->
      generate_pbar_conditions rgb2hex fl config = Raise ZeroDivisionError)%Z
  /\ (1 <= PBarConfig.step_size config -> PBarConfig.length config < 0 ->
      generate_pbar_conditions rgb2hex fl config = Raise IndexError)%Z
  /\ (PBarConfig.step_size config < 0 -> 0 <= PBarConfig.length config ->
      generate_pbar_conditions rgb2hex fl config = Raise IndexError)%Z
  /\ (PBarConfig.step_size config < 0 -> PBarConfig.length config < 0 ->
      exists c cs, generate_pbar_conditions rgb2hex fl config = Ok (c :: cs))%Z.
Proof.
  assert (H0 := @generate_step_zero _ rgb2hex fl config).
  assert (H1 := @generate_length_zero _ rgb2hex fl config).
  assert (H2 := @generate_no_steps _ rgb2hex fl config).
  assert (H3 := @generate_both_negative _ rgb2hex fl config).
  split; [|split; [|split; [|split; [|split]]]]; auto.
  intros E.
  destruct (Z.lt_trichotomy (PBarConfig.step_size config) 0) as [HS|[HS|HS]];
    destruct (Z.lt_trichotomy (PBarConfig.length config) 0) as [HL|[HL|HL]];
    try (rewrite H0 in E by assumption; discriminate);
    try (rewrite H2 in E by lia; discriminate);
    try (rewrite H1 in E by lia; discriminate).
  - destruct (H3 HS HL) as (c & cs & Hc). rewrite Hc in E. discriminate.
  - destruct (@generate_valid _ rgb2hex fl config ltac:(lia) ltac:(lia)) as (j & Hg & _).
    cbv zeta in Hg. unfold generate_pbar_conditions in E. rewrite Hg in E. discriminate.
Qed.

Lemma invalid_configurations_witness :
  generate_pbar_conditions same exact (config_of [] None 10 0) = Raise ValueError
  /\ generate_pbar_conditions same exact (config_of [] None 0 1) = Raise ZeroDivisionError
  /\ generate_pbar_conditions same exact (config_of [] None (-1) 1) = Raise IndexError
  /\ generate_pbar_conditions same exact (config_of [] None 10 (-1)) = Raise IndexError
  /\ (exists c cs,
        generate_pbar_conditions same exact (config_of [] None (-1) (-1)) = Ok (c :: cs)).
Proof.
  split; [|split; [|split; [|split]]].
  - destruct (@invalid_configurations str same exact (config_of [] None 10 0))
      as (_ & H & _). apply H. reflexivity.
  - destruct (@invalid_configurations str same exact (config_of [] None 0 1))
      as (_ & _ & H & _). apply H; unfold config_of; simpl; lia.
  - destruct (@invalid_configurations str same exact (config_of [] None (-1) 1))
      as (_ & _ & _ & H & _). apply H; unfold config_of; simpl; lia.
  - destruct (@invalid_configurations str same exact (config_of [] None 10 (-1)))
      as (_ & _ & _ & _ & H & _). apply H; unfold config_of; simpl; lia.
  - destruct (@invalid_configurations str same exact (config_of [] None (-1) (-1)))
      as (_ & _ & _ & _ & _ & H). apply H; unfold config_of; simpl; lia.
Defined.

(** C3.  The first call of the colour mapper, made for the zero-progress
    step -1, gets a negative argument: -1/7 for length 1 (the colour it
    returns is not used, the bar being empty).  Every later argument lies
    in [0, 1]. *)
Theorem cmap_arguments_after_the_first_are_in_unit
  (color : Type) (rgb2hex : color -> str) (fl : Q -> Q) (config : PBarConfig.t color)
  (cmap : pyfloat -> color) :
  (cmap_arguments same exact (config_of [] (const_color (lit "#8e1dcc")) 1 1)
   = List.map (fun n => PyFloat (n <? 0)%Z (Z.abs n # 7))
       [-1; 0; 0; 1; 1; 2; 2; 3; 3; 4; 4; 5; 5; 6; 6; 7; 7]%Z
   /\ ~ in_unit (PyFloat true (1 # 7)))
  /\ (rounding fl ->
      PBarConfig.cmap config = Some cmap ->
      (1 <= PBarConfig.length config)%Z -> (1 <= PBarConfig.step_size config)%Z ->
      exists rest,
        cmap_arguments rgb2hex fl config
        = quotient fl (-1) (PBarConfig.length config * 8 - 1) :: rest
        /\ negative (quotient fl (-1) (PBarConfig.length config * 8 - 1)) = true
        /\ Forall in_unit rest).
Proof.
  split.
  { split; [vm_compute; reflexivity|].
    unfold in_unit, float_value. cbn [negative magnitude]. intros [H _]. revert H.
    unfold Qle. simpl. lia. }
  intros Hfl Hc HL HS.
  destruct (@generate_valid _ rgb2hex fl config HL HS) as (j & Hg & Hj).
  cbv zeta in Hg. unfold cmap_arguments. rewrite Hg. cbn [fst flat_map].
  destruct (calls_of_first config Hfl Hc HL) as (rest & Hfirst & Hrest).
  rewrite Hfirst. eexists. split; [reflexivity|]. split.
  - unfold quotient. cbn [negative].
    destruct (Z.ltb_spec (PBarConfig.length config * 8 - 1) 0); [lia|reflexivity].
  - apply Forall_app. split; [assumption|].
    rewrite flat_map_app. apply Forall_app. split.
    + apply Forall_forall. intros x Hx. apply in_flat_map in Hx as (s & Hs & Hx).
      pose proof (calls_of_in_unit config Hfl Hc HL (mid_range config j s HS Hj Hs)) as Hall.
      rewrite Forall_forall in Hall. now apply Hall.
    + cbn [flat_map]. rewrite app_nil_r. now apply (calls_of_last config Hfl Hc).
Qed.

Lemma cmap_arguments_after_the_first_are_in_unit_witness :
  exists rest,
    cmap_arguments same exact (config_of [] (const_color (lit "#8e1dcc")) 10 1)
    = quotient exact (-1) (10 * 8 - 1) :: rest
    /\ negative (quotient exact (-1) (10 * 8 - 1)) = true
    /\ Forall in_unit rest.
Proof.
  refine (proj2 (@cmap_arguments_after_the_first_are_in_unit str same exact
           (config_of [] (const_color (lit "#8e1dcc")) 10 1) (fun _ => lit "#8e1dcc"))
           rounding_exact eq_refl _ _); unfold config_of; simpl; lia.
Defined.



End GeneratorClaims.

(** ** Generated texts through the renderer *)

Module RenderedTexts.
Import MarkupTheory Progress ProgressTheory.

#[local] Arguments N.eqb : simpl never.
#[local] Arguments ch : simpl never.
#[local] Arguments lit : simpl never.
#[local] Arguments Markup.sgr_open : simpl never.
#[local] Arguments Markup.sgr_reset : simpl never.
#[local] Arguments open_tag : simpl never.




Section Texts.

Variable color : Type.
Variable rgb2hex : color -> str.
Variable fl : Q -> Q.
Variable config : PBarConfig.t color.

Hypothesis rgb2hex_ok : forall c, hex_ok (rgb2hex c) = true.
Hypothesis prefix_ok : inert (PBarConfig.prefix config) = true.












End Texts.





End RenderedTexts.

(** ** The tests of the repository, on the model *)

Module RepositoryTests.

(** [TestPrettyPrintMarkup.test_various_markup_scenarios], cases 1 to 13, and
    [test_empty_input]: the model prints what the tests expect. *)
Lemma test_various_markup_scenarios :
  Markup.pretty_print_markup
    (lit "[font=technology-slot-level-font]" ++ [9608; 9608; 9608; 9608; 9613]%N
       ++ lit "[color=#00000000]" ++ [9608; 9608; 9608; 9608; 9608]%N
       ++ lit "0[/color][/font]  43.8%")
  = Some (Ok ([9608; 9608; 9608; 9608; 9613]%N ++ esc "[38;2;0;0;0m"
              ++ [9608; 9608; 9608; 9608; 9608]%N ++ lit "0" ++ esc "[0m  43.8%"))
  /\ Markup.pretty_print_markup
       (lit "[font=Arial]Plain [color=#FF0000]Red [color=#00FF00]Green Text[/color] Red Again[/color] Plain Again[/font] And text outside all tags.")
     = Some (Ok (lit "Plain " ++ esc "[38;2;255;0;0mRed " ++ esc "[38;2;0;255;0mGreen Text"
                 ++ esc "[0m Red Again" ++ esc "[0m Plain Again And text outside all tags."))
  /\ Markup.pretty_print_markup
       (lit "[font=Impact][color=#0000FF]Blue Text[/color][/font] then [font=Courier]Monospace Text[/font] and [color=#FFA500]Orange[/color].")
     = Some (Ok (esc "[38;2;0;0;255mBlue Text" ++ esc "[0m then Monospace Text and "
                 ++ esc "[38;2;255;165;0mOrange" ++ esc "[0m."))
  /\ Markup.pretty_print_markup
       (lit "[color=#FF0000]This is Red [font=ComicSansMS]Font Stripped[/font] still Red[/color]")
     = Some (Ok (esc "[38;2;255;0;0mThis is Red Font Stripped still Red" ++ esc "[0m"))
  /\ Markup.pretty_print_markup (lit "[font=UnclosedFont]Text [color=#00FFFF]Cyan text")
     = Some (Ok (lit "Text [color=#00FFFF]Cyan text"))
  /\ Markup.pretty_print_markup (lit "[font=Test]Before [color=#123456][/color] After[/font]")
     = Some (Ok (lit "Before " ++ esc "[38;2;18;52;86m" ++ esc "[0m After"))
  /\ Markup.pretty_print_markup (lit "Just plain text.") = Some (Ok (lit "Just plain text."))
  /\ Markup.pretty_print_markup (lit "[font=Test]Text inside font[/font]")
     = Some (Ok (lit "Text inside font"))
  /\ Markup.pretty_print_markup (lit "Leading [color=#ABCDEF]Colored[/color] Trailing")
     = Some (Ok (lit "Leading " ++ esc "[38;2;171;205;239mColored" ++ esc "[0m Trailing"))
  /\ Markup.pretty_print_markup
       (lit "[color=#112233]Colored [font=Impact]Stripped Font[/font] still colored[/color]")
     = Some (Ok (esc "[38;2;17;34;51mColored Stripped Font still colored" ++ esc "[0m"))
  /\ Markup.pretty_print_markup
       (lit "[color=#FF0000]Red text with a stray [/color] inside[/color]")
     = Some (Ok (esc "[38;2;255;0;0mRed text with a stray " ++ esc "[0m inside[/color]"))
  /\ Markup.pretty_print_markup
       (lit "[color=#FF0000]Outer [color=#00FF00]Inner unclosed GTAG RTAG")
     = Some (Ok (lit "[color=#FF0000]Outer [color=#00FF00]Inner unclosed GTAG RTAG"))
  /\ Markup.pretty_print_markup [] = Some (Ok []).
Proof. repeat split; vm_compute; reflexivity. Qed.

(** The text of the first test case is the one generated at threshold 35 of
    the test configuration. *)
Lemma generated_text_at_35 :
  match Progress.generate_pbar_conditions same Progress.exact test_config with
  | Ok cs => option_map (fun c => (constant c, comparator c, text c)) (List.nth_error cs 35)
  | Raise _ => None
  end
  = Some (35%Z, lit "=",
          lit "[font=technology-slot-level-font]" ++ [9608; 9608; 9608; 9608; 9613]%N
            ++ [9608; 9608; 9608; 9608; 9608]%N ++ lit "0[/font]  43.8%").
Proof. vm_compute. reflexivity. Qed.

End RepositoryTests.

(** ** Further properties of the renderer *)

Module RendererExtras.
Import Markup MarkupTheory.

#[local] Arguments N.eqb : simpl never.
#[local] Arguments N.leb : simpl never.
#[local] Arguments ch : simpl never.
#[local] Arguments lit : simpl never.
#[local] Arguments sgr_open : simpl never.
#[local] Arguments sgr_reset : simpl never.
#[local] Arguments open_tag : simpl never.

Lemma render_loop_ends_without_match : forall fuel s r,
  render_loop fuel s = Some (Ok r) -> search r = None.
Proof.
  induction fuel as [|fuel IH]; intros s r H; [discriminate|].
  rewrite render_loop_eq in H. destruct (search s) as [f|] eqn:E.
  - destruct (ansi_colored_text (hex f) (text f)); [|discriminate]. eauto.
  - now inversion H; subst.
Qed.

(** X1. Colour resolution is idempotent: what the loop returns holds no
    innermost colour span any more, and resolving it again returns it
    unchanged. *)
Theorem colour_resolution_is_idempotent (s : str) :
  exists r,
    _render_all_colors_iteratively s = Some (Ok r)
    /\ search r = None
    /\ _render_all_colors_iteratively r = Some (Ok r).
Proof.
  destruct (render_total s) as [r Hr]. exists r.
  assert (Hn : search r = None) by (eapply render_loop_ends_without_match; exact Hr).
  auto using render_no_match.
Qed.

(** X2. Text in which no ["["] is followed by ["c"], ["f"], ["/"] or the end
    of the text, in particular text without ["["], is printed as it is. *)
Theorem inert_text_is_printed_unchanged (s : str) :
  inert s = true -> pretty_print_markup s = Some (Ok s).
Proof.
  intros H. unfold pretty_print_markup. rewrite strip_font_inert by assumption.
  apply render_no_match. rewrite <- (app_nil_r s). now rewrite search_inert.
Qed.

Lemma inert_text_is_printed_unchanged_witness :
  pretty_print_markup (lit "Just [plain] text, 100%.")
  = Some (Ok (lit "Just [plain] text, 100%.")).
Proof. apply inert_text_is_printed_unchanged. reflexivity. Defined.


(** *** Colours *)

Lemma last6_last_six h : (6 <= List.length h)%nat -> last6 (last_six h) = last6 h.
Proof.
  intros H. unfold last_six, last6 at 1. cbn [List.length].
  assert (Hl : List.length (last6 h) = 6%nat) by (unfold last6; rewrite length_skipn; lia).
  rewrite Hl. reflexivity.
Qed.

Lemma sgr_open_last_six h : (6 <= List.length h)%nat -> sgr_open (last_six h) = sgr_open h.
Proof. intros H. unfold sgr_open. now rewrite last6_last_six. Qed.

Lemma forallb_skipn {A} (p : A -> bool) n : forall l,
  forallb p l = true -> forallb p (skipn n l) = true.
Proof.
  induction n as [|n IH]; intros l H; [assumption|].
  destruct l as [|a l]; [reflexivity|]. simpl in *. apply andb_prop in H as [_ H]. auto.
Qed.

Lemma hex_ok_last_six h : hex_ok h = true -> hex_ok (last_six h) = true.
Proof.
  intros H. apply hex_ok_inv in H as (ds & -> & Hd & Hl).
  unfold last_six, last6. cbn [List.length].
  replace (S (List.length ds) - 6)%nat with (S (List.length ds - 6)) by lia.
  cbn [skipn]. apply (@hex_ok_intro _ 6); [rewrite length_skipn; lia| |lia].
  now apply forallb_skipn.
Qed.

Lemma hex_ok_length h : hex_ok h = true -> (6 <= List.length h)%nat.
Proof. intros H. apply hex_ok_inv in H as (ds & -> & _ & Hl). simpl. lia. Qed.

Lemma drop_alpha_well_formed m : well_formed m = true -> well_formed (drop_alpha m) = true.
Proof.
  induction m as [|t k IH|h b IHb k IHk]; cbn [well_formed drop_alpha]; intros H; auto.
  - apply andb_prop in H as [Ht Hk]. now rewrite Ht, IH.
  - apply andb_prop in H as [H Hk]. apply andb_prop in H as [Hh Hb].
    now rewrite hex_ok_last_six, IHb, IHk.
Qed.

Lemma drop_alpha_stack_render m :
  well_formed m = true -> stack_render (drop_alpha m) = stack_render m.
Proof.
  induction m as [|t k IH|h b IHb k IHk]; cbn [well_formed drop_alpha stack_render];
    intros H; auto.
  - apply andb_prop in H as [Ht Hk]. now rewrite IH.
  - apply andb_prop in H as [H Hk]. apply andb_prop in H as [Hh Hb].
    now rewrite sgr_open_last_six, IHb, IHk by (auto using hex_ok_length).
Qed.

Lemma pretty_print_markup_tree m :
  well_formed m = true -> pretty_print_markup (serialize m) = Some (Ok (stack_render m)).
Proof.
  intros H. unfold pretty_print_markup. rewrite strip_font_markup by assumption.
  now apply (render_markup (n := spans m)).
Qed.

(** X3. The alpha digits are ignored: well-nested markup prints the same
    when each colour of seven or eight digits is replaced by its last six
    digits. *)
Theorem alpha_digits_are_ignored (m : markup) :
  well_formed m = true ->
  pretty_print_markup (serialize (drop_alpha m)) = pretty_print_markup (serialize m).
Proof.
  intros H. rewrite !pretty_print_markup_tree by auto using drop_alpha_well_formed.
  now rewrite drop_alpha_stack_render.
Qed.

Lemma alpha_digits_are_ignored_witness :
  pretty_print_markup (lit "a[color=#000000]b[/color]c")
  = pretty_print_markup (lit "a[color=#00000000]b[/color]c").
Proof.
  exact (alpha_digits_are_ignored
           (Text (lit "a") (Span (lit "#00000000") (Text (lit "b") Stop) (Text (lit "c") Stop)))
           eq_refl).
Defined.

Lemma upper_hash : upper (ch "#") = ch "#".
Proof. reflexivity. Qed.

Lemma digit_value_upper c : digit_value (upper c) = digit_value c.
Proof.
  unfold upper.
  change (ch "a") with 97%N. change (ch "f") with 102%N.
  destruct (N.leb_spec 97 c); destruct (N.leb_spec c 102); cbn [andb]; try reflexivity.
  unfold digit_value.
  change (ch "0") with 48%N. change (ch "9") with 57%N. change (ch "A") with 65%N.
  change (ch "F") with 70%N. change (ch "a") with 97%N. change (ch "f") with 102%N.
  repeat match goal with
         | |- context [N.leb ?a ?b] => destruct (N.leb_spec a b)
         end; cbn [andb]; lia.
Qed.

Lemma is_hex_upper c : is_hex (upper c) = is_hex c.
Proof.
  unfold upper.
  change (ch "a") with 97%N. change (ch "f") with 102%N.
  destruct (N.leb_spec 97 c); destruct (N.leb_spec c 102); cbn [andb]; try reflexivity.
  unfold is_hex.
  change (ch "0") with 48%N. change (ch "9") with 57%N. change (ch "A") with 65%N.
  change (ch "F") with 70%N. change (ch "a") with 97%N. change (ch "f") with 102%N.
  repeat match goal with
         | |- context [N.leb ?a ?b] => destruct (N.leb_spec a b)
         end; cbn [andb orb]; try reflexivity; lia.
Qed.

Lemma hex_value_upper s : hex_value (List.map upper s) = hex_value s.
Proof.
  unfold hex_value. generalize 0%N. induction s as [|c s IH]; intros acc; [reflexivity|].
  cbn [List.map fold_left]. now rewrite digit_value_upper, IH.
Qed.

Lemma sgr_open_upper h : sgr_open (List.map upper h) = sgr_open h.
Proof.
  unfold sgr_open, last6, slice. rewrite length_map.
  now rewrite !skipn_map, !firstn_map, !hex_value_upper.
Qed.

Lemma forallb_is_hex_upper ds : forallb is_hex (List.map upper ds) = forallb is_hex ds.
Proof.
  induction ds as [|c ds IH]; [reflexivity|].
  cbn [List.map forallb]. now rewrite is_hex_upper, IH.
Qed.

Lemma hex_ok_upper h : hex_ok (List.map upper h) = hex_ok h.
Proof.
  destruct h as [|c ds]; [reflexivity|]. unfold hex_ok. cbn [List.map].
  rewrite length_map, forallb_is_hex_upper.
  assert (Hc : N.eqb (upper c) (ch "#") = N.eqb c (ch "#")).
  { unfold upper. change (ch "a") with 97%N. change (ch "f") with 102%N.
    change (ch "#") with 35%N.
    destruct (N.leb_spec 97 c); destruct (N.leb_spec c 102); cbn [andb]; try reflexivity.
    destruct (N.eqb_spec (c - 32) 35); destruct (N.eqb_spec c 35); try reflexivity; lia. }
  now rewrite Hc.
Qed.

Lemma upper_case_well_formed m : well_formed (upper_case m) = well_formed m.
Proof.
  induction m as [|t k IH|h b IHb k IHk]; cbn [well_formed upper_case]; auto.
  - now rewrite IH.
  - now rewrite hex_ok_upper, IHb, IHk.
Qed.

Lemma upper_case_stack_render m : stack_render (upper_case m) = stack_render m.
Proof.
  induction m as [|t k IH|h b IHb k IHk]; cbn [upper_case stack_render]; auto.
  - now rewrite IH.
  - now rewrite sgr_open_upper, IHb, IHk.
Qed.

(** X4. The case of the hex digits does not matter: well-nested markup
    prints the same when its colours are written in upper case. *)
Theorem hex_digits_are_case_insensitive (m : markup) :
  well_formed m = true ->
  pretty_print_markup (serialize (upper_case m)) = pretty_print_markup (serialize m).
Proof.
  intros H. rewrite !pretty_print_markup_tree by (now rewrite ?upper_case_well_formed).
  now rewrite upper_case_stack_render.
Qed.

Lemma hex_digits_are_case_insensitive_witness :
  pretty_print_markup (lit "[color=#ABCDEF]Colored[/color]")
  = pretty_print_markup (lit "[color=#abcdef]Colored[/color]").
Proof.
  exact (hex_digits_are_case_insensitive
           (Span (lit "#abcdef") (Text (lit "Colored") Stop) Stop) eq_refl).
Defined.

Lemma digit_value_lt c : (digit_value c < 16)%N.
Proof.
  unfold digit_value.
  change (ch "0") with 48%N. change (ch "9") with 57%N. change (ch "A") with 65%N.
  change (ch "F") with 70%N. change (ch "a") with 97%N. change (ch "f") with 102%N.
  repeat match goal with
         | |- context [N.leb ?a ?b] => destruct (N.leb_spec a b)
         end; cbn [andb]; lia.
Qed.

Lemma hex_value_pair_lt a s : (hex_value (slice a (a + 2) s) < 256)%N.
Proof.
  unfold slice. replace (a + 2 - a)%nat with 2%nat by lia.
  destruct (skipn a s) as [|c [|d t]]; cbn [firstn hex_value fold_left].
  - lia.
  - pose proof (digit_value_lt c). lia.
  - pose proof (digit_value_lt c). pose proof (digit_value_lt d). lia.
Qed.

(** X5. Every escape sequence the loop writes is a valid 24-bit colour: a
    match is replaced by [ESC[38;2;r;g;bm], the text and [ESC[0m] with [r],
    [g] and [b] below 256, whatever the digits are. *)
Theorem colour_components_are_bytes (s : str) (f : found) :
  search s = Some f ->
  exists r g b,
    (r < 256 /\ g < 256 /\ b < 256)%N
    /\ ansi_colored_text (hex f) (text f) = Ok (sgr_of r g b ++ text f ++ sgr_reset).
Proof.
  intros E. destruct (search_spec _ E) as [_ Hh].
  exists (hex_value (slice 0 2 (last6 (hex f)))), (hex_value (slice 2 4 (last6 (hex f)))),
    (hex_value (slice 4 6 (last6 (hex f)))).
  split; [|now apply ansi_colored_text_ok].
  repeat split.
  - apply (hex_value_pair_lt 0).
  - apply (hex_value_pair_lt 2).
  - apply (hex_value_pair_lt 4).
Qed.

Lemma colour_components_are_bytes_witness :
  exists r g b,
    (r < 256 /\ g < 256 /\ b < 256)%N
    /\ ansi_colored_text (lit "#80FF8000") (lit "x")
       = Ok (sgr_of r g b ++ lit "x" ++ sgr_reset).
Proof.
  exact (@colour_components_are_bytes (lit "a[color=#80FF8000]x[/color]b")
           (Found (lit "a") (lit "#80FF8000") (lit "x") (lit "b")) eq_refl).
Defined.

(** *** Font tags *)

Lemma remove_matches_skip m p : forall X,
  remove_matches m (List.length p) (p ++ X) = remove_matches m 0 X.
Proof.
  induction p as [|c p IH]; intros X; [reflexivity|]. cbn [List.length app remove_matches].
  apply IH.
Qed.

Lemma span_not_rbracket_name name : forall X,
  no_rbracket name = true ->
  span_not_rbracket (name ++ ch "]" :: X) = (name, ch "]" :: X).
Proof.
  induction name as [|c name IH]; intros X H.
  - cbn [app span_not_rbracket]. now rewrite N.eqb_refl.
  - cbn [no_rbracket forallb] in H. apply andb_prop in H as [Hc Hn].
    cbn [app span_not_rbracket]. apply negb_true_iff in Hc. rewrite Hc.
    now rewrite (IH X Hn).
Qed.

Lemma span_not_rbracket_all r :
  no_rbracket r = true -> span_not_rbracket r = (r, []).
Proof.
  induction r as [|c r IH]; intros H; [reflexivity|].
  cbn [no_rbracket forallb] in H. apply andb_prop in H as [Hc Hn].
  cbn [span_not_rbracket]. apply negb_true_iff in Hc. rewrite Hc.
  now rewrite (IH Hn).
Qed.

Lemma FONT_OPEN_RE_tag name X :
  name <> [] -> no_rbracket name = true ->
  FONT_OPEN_RE (lit "[font=" ++ name ++ lit "]" ++ X)
  = Some (6 + List.length name + 1)%nat.
Proof.
  intros Hne Hn. unfold FONT_OPEN_RE. rewrite strip_prefix_app.
  change (lit "]" ++ X) with (ch "]" :: X). rewrite span_not_rbracket_name by assumption.
  destruct name; [congruence|reflexivity].
Qed.

Lemma remove_font_open_tag name X :
  name <> [] -> no_rbracket name = true ->
  remove_matches FONT_OPEN_RE 0 (lit "[font=" ++ name ++ lit "]" ++ X)
  = remove_matches FONT_OPEN_RE 0 X.
Proof.
  intros Hne Hn. pose proof (FONT_OPEN_RE_tag X Hne Hn) as E.
  rewrite lit_font_open in *.
  change ((ch "[" :: ch "f" :: lit "ont=") ++ name ++ lit "]" ++ X)
    with (ch "[" :: (ch "f" :: lit "ont=") ++ name ++ lit "]" ++ X) in *.
  cbn [remove_matches]. rewrite E. cbn [Nat.add].
  rewrite <- (remove_matches_skip FONT_OPEN_RE ((ch "f" :: lit "ont=") ++ name ++ lit "]") X).
  rewrite <- !app_assoc. f_equal.
  rewrite !length_app. cbn [List.length]. change (List.length (lit "ont=")) with 4%nat.
  change (List.length (lit "]")) with 1%nat. lia.
Qed.

(** X6. An opening font tag is deleted before the colours are rendered:
    after an inert text, ["[font=name]"] with a non-empty name free of
    ["]"] leaves no trace in what is printed. *)
Theorem opening_font_tag_is_deleted (a name X : str) :
  inert a = true -> name <> [] -> no_rbracket name = true ->
  pretty_print_markup (a ++ lit "[font=" ++ name ++ lit "]" ++ X)
  = pretty_print_markup (a ++ X).
Proof.
  intros Ha Hne Hn. unfold pretty_print_markup, strip_font.
  rewrite (@remove_font_open_inert a _ Ha), (@remove_font_open_inert a X Ha).
  now rewrite remove_font_open_tag.
Qed.

Lemma opening_font_tag_is_deleted_witness :
  pretty_print_markup (lit "The [font=default-bold]bold[/font] one")
  = pretty_print_markup (lit "The bold[/font] one").
Proof.
  apply (@opening_font_tag_is_deleted (lit "The ") (lit "default-bold") (lit "bold[/font] one")).
  - reflexivity.
  - discriminate.
  - reflexivity.
Defined.

Lemma remove_font_open_close_tag X :
  remove_matches FONT_OPEN_RE 0 (lit "[/font]" ++ X)
  = lit "[/font]" ++ remove_matches FONT_OPEN_RE 0 X.
Proof. reflexivity. Qed.

Lemma remove_matches_font_close Y :
  remove_matches (literal_match (lit "[/font]")) 0 (lit "[/font]" ++ Y)
  = remove_matches (literal_match (lit "[/font]")) 0 Y.
Proof. reflexivity. Qed.

(** X7. A closing font tag is deleted as well: after an inert text,
    ["[/font]"] leaves no trace in what is printed, whatever follows. *)
Theorem closing_font_tag_is_deleted (a X : str) :
  inert a = true ->
  pretty_print_markup (a ++ lit "[/font]" ++ X) = pretty_print_markup (a ++ X).
Proof.
  intros Ha. unfold pretty_print_markup, strip_font.
  rewrite (@remove_font_open_inert a _ Ha), (@remove_font_open_inert a X Ha).
  rewrite remove_font_open_close_tag.
  rewrite (@remove_font_close_inert a (lit "[/font]" ++ _) Ha), (@remove_font_close_inert a _ Ha).
  now rewrite remove_matches_font_close.
Qed.

Lemma closing_font_tag_is_deleted_witness :
  pretty_print_markup (lit "The bold[/font] one") = pretty_print_markup (lit "The bold one").
Proof.
  apply (@closing_font_tag_is_deleted (lit "The bold") (lit " one")). reflexivity.
Defined.

Lemma FONT_OPEN_RE_unfinished r :
  no_rbracket r = true \/ (exists s, r = ch "]" :: s) ->
  FONT_OPEN_RE (lit "[font=" ++ r) = None.
Proof.
  intros [H|[s ->]]; unfold FONT_OPEN_RE; rewrite strip_prefix_app.
  - rewrite span_not_rbracket_all by assumption. now destruct r.
  - cbn [span_not_rbracket]. now rewrite N.eqb_refl.
Qed.

(** X8. An opening font tag needs a name and its bracket: ["[font="]
    followed by an inert text that starts with ["]"], or holds no ["]"] at
    all, is printed as it stands. *)
Theorem unfinished_font_tag_is_kept (a r : str) :
  inert a = true -> inert r = true ->
  no_rbracket r = true \/ (exists s, r = ch "]" :: s) ->
  pretty_print_markup (a ++ lit "[font=" ++ r) = Some (Ok (a ++ lit "[font=" ++ r)).
Proof.
  intros Ha Hr H. apply FONT_OPEN_RE_unfinished in H.
  assert (Hi : inert (lit "font=" ++ r) = true) by (apply inert_app; [reflexivity|assumption]).
  unfold pretty_print_markup, strip_font.
  rewrite remove_font_open_inert by assumption.
  change (lit "[font=" ++ r) with (ch "[" :: lit "font=" ++ r) in *.
  rewrite (remove_matches_keep FONT_OPEN_RE) by (now rewrite H).
  rewrite <- (app_nil_r (lit "font=" ++ r)) at 1.
  rewrite remove_font_open_inert by assumption. cbn [remove_matches]. rewrite app_nil_r.
  rewrite remove_font_close_inert by assumption.
  rewrite (remove_matches_keep (literal_match (lit "[/font]"))) by reflexivity.
  rewrite <- (app_nil_r (lit "font=" ++ r)) at 1.
  rewrite remove_font_close_inert by assumption. cbn [remove_matches]. rewrite app_nil_r.
  apply render_no_match. rewrite search_inert by assumption.
  rewrite search_eq.
  replace (INNERMOST_COLOR_RE (ch "[" :: lit "font=" ++ r)) with (@None (str * str * str))
    by reflexivity.
  rewrite <- (app_nil_r (lit "font=" ++ r)). rewrite search_inert by assumption.
  reflexivity.
Qed.

Lemma unfinished_font_tag_is_kept_witness :
  pretty_print_markup (lit "a [font=]b") = Some (Ok (lit "a [font=]b")).
Proof.
  apply (@unfinished_font_tag_is_kept (lit "a ") (lit "]b")).
  - reflexivity.
  - reflexivity.
  - right. exists (lit "b"). reflexivity.
Defined.

End RendererExtras.

(** * The sampling helper *)

Module SamplingExtras.

Import Sampling.
Import ProgressTheory.

(** *** Rounding to the nearest integer *)

Lemma round_half_even_spec n d :
  let r := round_half_even (n # d) in
  ((2 * r - 1) * Z.pos d <= 2 * n <= (2 * r + 1) * Z.pos d)%Z
  /\ ((2 * n = (2 * r - 1) * Z.pos d \/ 2 * n = (2 * r + 1) * Z.pos d)%Z
      -> Z.even r = true).
Proof.
  unfold round_half_even. cbn [Qnum Qden].
  pose proof (Z.div_mod n (Z.pos d) ltac:(lia)) as E.
  pose proof (Z.mod_pos_bound n (Z.pos d) ltac:(lia)) as B.
  set (k := (n / Z.pos d)%Z) in *. set (m := (n mod Z.pos d)%Z) in *.
  destruct (Z.compare_spec (2 * m) (Z.pos d)) as [H|H|H].
  - destruct (Z.even k) eqn:Ev.
    + split; [lia|auto].
    + split; [lia|]. intros _. rewrite Z.even_add, Ev. reflexivity.
  - split; [lia|]. intros [T|T]; exfalso; lia.
  - split; [lia|]. intros [T|T]; exfalso; lia.
Qed.

Lemma round_half_even_mono x y : x <= y -> (round_half_even x <= round_half_even y)%Z.
Proof.
  destruct x as [nx dx], y as [ny dy]. unfold Qle. cbn [Qnum Qden]. intros H.
  destruct (round_half_even_spec nx dx) as [[Lx _] Tx].
  destruct (round_half_even_spec ny dy) as [[_ Uy] Ty].
  set (rx := round_half_even (nx # dx)) in *. set (ry := round_half_even (ny # dy)) in *.
  destruct (Z_le_gt_dec rx ry) as [|G]; [assumption|exfalso].
  assert (A1 : ((2 * rx - 1) * Z.pos dx * Z.pos dy <= 2 * nx * Z.pos dy)%Z)
    by (apply Z.mul_le_mono_nonneg_r; lia).
  assert (A2 : (2 * ny * Z.pos dx <= (2 * ry + 1) * Z.pos dy * Z.pos dx)%Z)
    by (apply Z.mul_le_mono_nonneg_r; lia).
  assert (A3 : ((2 * ry + 1) * (Z.pos dx * Z.pos dy)
                <= (2 * rx - 1) * (Z.pos dx * Z.pos dy))%Z)
    by (apply Z.mul_le_mono_nonneg_r; lia).
  assert (E1 : ((2 * rx - 1) * Z.pos dx * Z.pos dy = 2 * nx * Z.pos dy)%Z) by lia.
  assert (E2 : (2 * ny * Z.pos dx = (2 * ry + 1) * Z.pos dy * Z.pos dx)%Z) by lia.
  assert (E3 : ((2 * ry + 1) * (Z.pos dx * Z.pos dy)
                = (2 * rx - 1) * (Z.pos dx * Z.pos dy))%Z) by lia.
  apply Z.mul_reg_r in E1; [|lia]. apply Z.mul_reg_r in E2; [|lia].
  apply Z.mul_reg_r in E3; [|lia].
  assert (Ex : Z.even rx = true) by (apply Tx; lia).
  assert (Ey : Z.even ry = true) by (apply Ty; lia).
  replace rx with (ry + 1)%Z in Ex by lia.
  rewrite Z.even_add, Ey in Ex. discriminate.
Qed.

(** *** The loop *)

Lemma for_each_ok {A B} (f : A -> result B) (g : A -> B) : forall l,
  (forall x, In x l -> f x = Ok (g x)) -> for_each l f = Ok (List.map g l).
Proof.
  induction l as [|a l IH]; intros H; [reflexivity|].
  cbn [for_each List.map]. rewrite (H a) by (now left). cbn [bind].
  rewrite IH by (intros x Hx; apply H; now right). reflexivity.
Qed.

Lemma getitem_ok {A} (data : list A) (d : A) (i : Z) :
  (0 <= i < Z.of_nat (List.length data))%Z ->
  getitem data i = Ok (List.nth (Z.to_nat i) data d).
Proof.
  intros H. unfold getitem.
  destruct (Z.ltb_spec i 0); [lia|].
  destruct (Z.leb_spec 0 i); [|lia].
  destruct (Z.ltb_spec i (Z.of_nat (List.length data))); [|lia]. cbn [andb].
  rewrite (nth_error_nth' data d) by lia. reflexivity.
Qed.

Section Indices.

Variable fl : Q -> Q.
Hypothesis fl_ok : rounding fl.

(** The length of the list, and the number of samples. *)
Variables n k : Z.
Hypothesis fl_last : fl (inject_Z (n - 1)) == inject_Z (n - 1).
Hypothesis k_range : (2 <= k < n)%Z.

(** The index computed for the sample [i]. *)
#[local] Notation "'index_of' i" :=
  (round (Progress.quotient fl (i * (n - 1)) (k - 1))) (at level 10, i at level 9).

Lemma fl_equal x y : x == y -> fl x == fl y.
Proof. intros H. apply Qle_antisym; apply (fl_mono fl_ok); lra. Qed.

Lemma index_eq i :
  (0 <= i)%Z -> index_of i = round_half_even (fl ((i * (n - 1)) # Z.to_pos (k - 1))).
Proof.
  intros Hi. unfold round, Progress.quotient. cbn [negative magnitude].
  destruct (Z.ltb_spec (i * (n - 1)) 0); [nia|].
  destruct (Z.ltb_spec (k - 1) 0); [lia|]. cbn [xorb].
  now rewrite !Z.abs_eq by lia.
Qed.

Lemma ratio_le i j :
  (0 <= i <= j)%Z ->
  (i * (n - 1)) # Z.to_pos (k - 1) <= (j * (n - 1)) # Z.to_pos (k - 1).
Proof.
  intros H. unfold Qle. cbn [Qnum Qden].
  apply Z.mul_le_mono_nonneg_r; [lia|]. apply Z.mul_le_mono_nonneg_r; lia.
Qed.

Lemma index_mono i j : (0 <= i <= j)%Z -> (index_of i <= index_of j)%Z.
Proof.
  intros H. rewrite !index_eq by lia.
  apply round_half_even_mono, (fl_mono fl_ok), ratio_le. assumption.
Qed.

Lemma index_first : index_of 0 = 0%Z.
Proof.
  rewrite index_eq by lia. apply round_half_even_integer.
  assert (E : (0 * (n - 1)) # Z.to_pos (k - 1) == 0) by (unfold Qeq; cbn [Qnum Qden]; lia).
  pose proof (fl_equal E). pose proof (fl_0 fl_ok). unfold inject_Z. lra.
Qed.

Lemma index_last : index_of (k - 1) = (n - 1)%Z.
Proof.
  rewrite index_eq by lia. apply round_half_even_integer.
  assert (E : ((k - 1) * (n - 1)) # Z.to_pos (k - 1) == inject_Z (n - 1)).
  { unfold Qeq, inject_Z. cbn [Qnum Qden]. rewrite Z2Pos.id by lia. lia. }
  pose proof (fl_equal E). lra.
Qed.

Lemma index_range i : (0 <= i <= k - 1)%Z -> (0 <= index_of i <= n - 1)%Z.
Proof.
  intros H. pose proof (@index_mono 0 i ltac:(lia)) as L.
  pose proof (@index_mono i (k - 1) ltac:(lia)) as U.
  rewrite index_first in L. rewrite index_last in U. lia.
Qed.

End Indices.


Lemma nth_map_seq (g : nat -> nat) m i : (i < m)%nat -> List.nth i (List.map g (List.seq 0 m)) 0%nat = g i.
Proof.
  intros H. rewrite (nth_indep _ 0%nat (g 0%nat)) by (now rewrite length_map, length_seq).
  rewrite map_nth, seq_nth by assumption. reflexivity.
Qed.

Lemma sample_between (A : Type) (fl : Q -> Q) (data : list A) (k : Z) :
  rounding fl ->
  fl (inject_Z (Z.of_nat (List.length data) - 1))
    == inject_Z (Z.of_nat (List.length data) - 1) ->
  (2 <= k < Z.of_nat (List.length data))%Z ->
  exists (l : list A) (indices : list nat),
    sample_evenly_interpolated fl data k = Ok l
    /\ List.length l = Z.to_nat k
    /\ List.map Some l = List.map (List.nth_error data) indices
    /\ List.hd_error indices = Some 0%nat
    /\ List.last indices 0%nat = (List.length data - 1)%nat
    /\ (forall i j, (i <= j < List.length indices)%nat ->
          (List.nth i indices 0 <= List.nth j indices 0)%nat).
Proof.
  intros Hfl Hlast Hk.
  assert (d : A) by (destruct data; [cbn in Hk; lia|assumption]).
  remember (Z.of_nat (List.length data)) as n eqn:Hn.
  set (idx := fun i : nat =>
         Z.to_nat (round (Progress.quotient fl (Z.of_nat i * (n - 1)) (k - 1)))).
  assert (Hr : forall i, (i < Z.to_nat k)%nat -> (idx i < List.length data)%nat).
  { intros i Hi. unfold idx.
    pose proof (@index_range fl Hfl n k Hlast Hk (Z.of_nat i) ltac:(lia)). lia. }
  assert (Hm : forall i j, (i <= j)%nat -> (idx i <= idx j)%nat).
  { intros i j Hij. unfold idx.
    pose proof (@index_mono fl Hfl n k Hk (Z.of_nat i) (Z.of_nat j) ltac:(lia)). lia. }
  exists (List.map (fun i => List.nth (idx i) data d) (List.seq 0 (Z.to_nat k))),
    (List.map idx (List.seq 0 (Z.to_nat k))).
  split; [|split; [|split; [|split; [|split]]]].
  - unfold sample_evenly_interpolated. rewrite <- Hn.
    destruct (Z.ltb_spec k 0); [lia|]. destruct (Z.eqb_spec k 0); [lia|].
    destruct (Z.eqb_spec n 0); [lia|]. destruct (Z.eqb_spec k 1); [lia|].
    destruct (Z.geb_spec k n); [lia|].
    unfold range.
    replace (List.map (fun i => List.nth (idx i) data d) (List.seq 0 (Z.to_nat k)))
      with (List.map (fun z => List.nth (idx (Z.to_nat z)) data d)
              (List.map Z.of_nat (List.seq 0 (Z.to_nat k))))
      by (rewrite map_map; apply map_ext; intros i; now rewrite Nat2Z.id).
    apply for_each_ok. intros z Hz. apply in_map_iff in Hz as (i & <- & Hi).
    apply in_seq in Hi. rewrite Nat2Z.id.
    unfold truediv, Progress.truediv. destruct (Z.eqb_spec (k - 1) 0); [lia|].
    cbn [snd Progress.ret bind].
    change (PyFloat _ _) with (Progress.quotient fl (Z.of_nat i * (n - 1)) (k - 1)).
    pose proof (@index_range fl Hfl n k Hlast Hk (Z.of_nat i) ltac:(lia)).
    rewrite (getitem_ok data d) by lia. reflexivity.
  - now rewrite length_map, length_seq.
  - rewrite !map_map. apply map_ext_in. intros i Hi. apply in_seq in Hi.
    symmetry. apply nth_error_nth'. apply Hr. lia.
  - destruct (Z.to_nat k) as [|k'] eqn:Ek; [lia|]. cbn [seq List.map hd_error].
    f_equal. unfold idx. change (Z.of_nat 0) with 0%Z.
    now rewrite (@index_first fl Hfl n k Hk).
  - destruct (Z.to_nat k) as [|k'] eqn:Ek; [lia|].
    rewrite seq_S, map_app. cbn [List.map]. rewrite last_last. unfold idx.
    replace (Z.of_nat (0 + k')) with (k - 1)%Z by lia.
    rewrite (@index_last fl Hfl n k Hlast Hk). lia.
  - intros i j Hij. rewrite length_map, length_seq in Hij.
    rewrite !nth_map_seq by lia. apply Hm. lia.
Qed.

Lemma sample_all (A : Type) (fl : Q -> Q) (data : list A) (k : Z) :
  (0 <= k)%Z -> (Z.of_nat (List.length data) <= k)%Z ->
  sample_evenly_interpolated fl data k = Ok data.
Proof.
  intros H0 Hk. unfold sample_evenly_interpolated.
  destruct (Z.ltb_spec k 0); [lia|].
  destruct (Z.eqb_spec k 0).
  { destruct data; [reflexivity|cbn [List.length] in Hk; lia]. }
  destruct (Z.eqb_spec (Z.of_nat (List.length data)) 0).
  { destruct data; [reflexivity|cbn [List.length] in *; lia]. }
  destruct (Z.eqb_spec k 1).
  { destruct data as [|a [|b data]]; [cbn in *; lia|reflexivity|].
    cbn [List.length] in Hk. lia. }
  destruct (Z.geb_spec k (Z.of_nat (List.length data))); [reflexivity|lia].
Qed.

Lemma sample_one (A : Type) (fl : Q -> Q) (data : list A) :
  data <> [] ->
  exists a, List.nth_error data (List.length data / 2) = Some a
            /\ sample_evenly_interpolated fl data 1 = Ok [a].
Proof.
  intros Hd. assert (d : A) by (destruct data; [congruence|assumption]).
  assert (Hn : (0 < List.length data)%nat) by (destruct data; [congruence|simpl; lia]).
  assert (Hh : (List.length data / 2 < List.length data)%nat)
    by (apply Nat.div_lt; lia).
  exists (List.nth (List.length data / 2) data d). split.
  - now apply nth_error_nth'.
  - unfold sample_evenly_interpolated.
    destruct (Z.eqb_spec (Z.of_nat (List.length data)) 0); [lia|].
    cbn [Z.ltb Z.eqb Z.compare].
    assert (E : (Z.of_nat (List.length data) / 2)%Z = Z.of_nat (List.length data / 2))
      by (now rewrite Nat2Z.inj_div).
    rewrite E, (getitem_ok data d) by lia. now rewrite Nat2Z.id.
Qed.

(** X9. Between two and [len(data) - 1] samples: the loop takes exactly
    [num_samples] items at indices that start at 0, end at the last index
    and never go back; no index leaves the list. *)
Theorem samples_run_from_first_to_last (A : Type) (fl : Q -> Q) (data : list A) (k : Z) :
  rounding fl ->
  fl (inject_Z (Z.of_nat (List.length data) - 1))
    == inject_Z (Z.of_nat (List.length data) - 1) ->
  (2 <= k < Z.of_nat (List.length data))%Z ->
  exists (l : list A) (indices : list nat),
    sample_evenly_interpolated fl data k = Ok l
    /\ List.length l = Z.to_nat k
    /\ List.map Some l = List.map (List.nth_error data) indices
    /\ List.hd_error indices = Some 0%nat
    /\ List.last indices 0%nat = (List.length data - 1)%nat
    /\ (forall i j, (i <= j < List.length indices)%nat ->
          (List.nth i indices 0 <= List.nth j indices 0)%nat).
Proof. apply sample_between. Qed.

Lemma samples_run_from_first_to_last_witness :
  exists (l : list N) (indices : list nat),
    sample_evenly_interpolated Progress.exact [10; 20; 30; 40; 50; 60]%N 3 = Ok l
    /\ List.length l = 3%nat
    /\ List.map Some l = List.map (List.nth_error [10; 20; 30; 40; 50; 60]%N) indices
    /\ List.hd_error indices = Some 0%nat
    /\ List.last indices 0%nat = 5%nat
    /\ (forall i j, (i <= j < List.length indices)%nat ->
          (List.nth i indices 0 <= List.nth j indices 0)%nat).
Proof.
  apply (@samples_run_from_first_to_last N Progress.exact [10; 20; 30; 40; 50; 60]%N 3).
  - exact rounding_exact.
  - reflexivity.
  - simpl. lia.
Defined.


(** X10. The sampler raises only for a negative [num_samples], and then
    [ValueError]: otherwise it returns [min(num_samples, len(data))] items,
    all of them items of [data]. *)
Theorem sampling_raises_only_for_a_negative_count
    (A : Type) (fl : Q -> Q) (data : list A) (k : Z) :
  rounding fl ->
  fl (inject_Z (Z.of_nat (List.length data) - 1))
    == inject_Z (Z.of_nat (List.length data) - 1) ->
  match sample_evenly_interpolated fl data k with
  | Raise e => e = ValueError /\ (k < 0)%Z
  | Ok l =>
      (0 <= k)%Z
      /\ List.length l = Z.to_nat (Z.min k (Z.of_nat (List.length data)))
      /\ incl l data
  end.
Proof.
  intros Hfl Hlast.
  destruct (Z_lt_le_dec k 0) as [Hneg|H0].
  { unfold sample_evenly_interpolated. destruct (Z.ltb_spec k 0); [auto|lia]. }
  destruct (Z_le_gt_dec (Z.of_nat (List.length data)) k) as [Hall|Hfew].
  { rewrite sample_all by assumption. split; [assumption|]. split; [lia|apply incl_refl]. }
  destruct (Z.eq_dec k 0) as [->|Hk0].
  { unfold sample_evenly_interpolated. cbn [Z.ltb Z.eqb Z.compare].
    split; [lia|]. split; [cbn [List.length]; lia|apply incl_nil_l]. }
  destruct (Z.eq_dec k 1) as [->|Hk1].
  { destruct (@sample_one A fl data) as (a & Ha & ->).
    { destruct data; [cbn in Hfew; lia|discriminate]. }
    split; [lia|]. split; [cbn [List.length]; lia|].
    intros x [<-|[]]. now apply nth_error_In in Ha. }
  destruct (@sample_between A fl data k Hfl Hlast ltac:(lia))
    as (l & indices & -> & Hlen & Hmap & _).
  split; [lia|]. split; [lia|].
  intros x Hx. apply (in_map Some) in Hx. rewrite Hmap in Hx.
  apply in_map_iff in Hx as (j & Hj & _). now apply nth_error_In in Hj.
Qed.

Lemma sampling_raises_only_for_a_negative_count_witness :
  match sample_evenly_interpolated Progress.exact [10; 20; 30; 40; 50; 60]%N 4 with
  | Raise e => e = ValueError /\ (4 < 0)%Z
  | Ok l =>
      (0 <= 4)%Z /\ List.length l = Z.to_nat (Z.min 4 6) /\ incl l [10; 20; 30; 40; 50; 60]%N
  end.
Proof.
  apply (@sampling_raises_only_for_a_negative_count N Progress.exact
           [10; 20; 30; 40; 50; 60]%N 4).
  - exact rounding_exact.
  - reflexivity.
Defined.

(** X11. Asking for at least [len(data)] samples returns the list itself,
    also when the list is empty or has one item. *)
Theorem enough_samples_return_the_list (A : Type) (fl : Q -> Q) (data : list A) (k : Z) :
  (0 <= k)%Z -> (Z.of_nat (List.length data) <= k)%Z ->
  sample_evenly_interpolated fl data k = Ok data.
Proof. apply sample_all. Qed.

Lemma enough_samples_return_the_list_witness :
  sample_evenly_interpolated Progress.exact [10; 20; 30]%N 3 = Ok [10; 20; 30]%N.
Proof.
  apply (@enough_samples_return_the_list N Progress.exact [10; 20; 30]%N 3); simpl; lia.
Defined.

(** X12. One sample of a non-empty list is its middle item, the one at
    index [len(data) // 2]; the index is inside the list. *)
Theorem single_sample_is_the_middle_item (A : Type) (fl : Q -> Q) (data : list A) :
  data <> [] ->
  exists a, List.nth_error data (List.length data / 2) = Some a
            /\ sample_evenly_interpolated fl data 1 = Ok [a].
Proof. apply sample_one. Qed.

Lemma single_sample_is_the_middle_item_witness :
  exists a, List.nth_error [10; 20; 30; 40]%N (4 / 2) = Some a
            /\ sample_evenly_interpolated Progress.exact [10; 20; 30; 40]%N 1 = Ok [a].
Proof.
  apply (@single_sample_is_the_middle_item N Progress.exact [10; 20; 30; 40]%N).
  discriminate.
Defined.

End SamplingExtras.

(** * The generator: thresholds, end points and colour calls *)

Module GeneratorExtras.

Import Progress ProgressTheory.

Section Explicit.

Variable color : Type.
Variable rgb2hex : color -> str.
Variable fl : Q -> Q.
Variable config : PBarConfig.t color.

Hypothesis length_ok : (1 <= PBarConfig.length config)%Z.
Hypothesis step_ok : (1 <= PBarConfig.step_size config)%Z.

(** The number of steps strictly between the first and the last. *)
#[local] Notation "'inner'" :=
  (Z.to_nat ((max_threshold config - 1) / PBarConfig.step_size config)).

Lemma steps_explicit :
  steps config
  = ret (List.map (range_item config) (List.seq 0 (S inner))
           ++ [(max_threshold config - 1)%Z]).
Proof.
  unfold steps, range.
  set (M := max_threshold config). set (st := PBarConfig.step_size config) in *.
  assert (HM : (8 <= M)%Z) by (unfold M, max_threshold; change divs with 8%Z; lia).
  destruct (Z.eqb_spec st 0); [lia|].
  destruct (Z.ltb_spec 0 st); [|lia].
  replace (M - -1 + st - 1)%Z with (M + 1 * st)%Z by lia.
  rewrite Z.div_add by lia.
  assert (Hq : (0 <= M / st)%Z) by (apply Z.div_pos; lia).
  replace (Z.to_nat (M / st + 1)) with (S (Z.to_nat (M / st))) by lia.
  set (k := Z.to_nat (M / st)).
  change (fun i : nat => (-1 + Z.of_nat i * st)%Z) with (range_item config).
  rewrite seq_S, map_app. cbn [List.map Nat.add bind ret app].
  rewrite last_item_snoc. cbn [bind ret app].
  pose proof (Z.div_mod M st ltac:(lia)) as Hdm.
  pose proof (Z.mod_pos_bound M st ltac:(lia)) as Hmod.
  assert (Hk : range_item config k = (-1 + st * (M / st))%Z)
    by (unfold range_item, k; fold st; lia).
  destruct (Z.ltb_spec (range_item config k) (M - 1)) as [Hlt|Hge].
  - assert (E : ((M - 1) / st = M / st)%Z).
    { symmetry. apply (Z.div_unique (M - 1) st (M / st) (M mod st - 1)); lia. }
    rewrite E. fold k. rewrite seq_S, map_app. reflexivity.
  - assert (E : ((M - 1) / st = M / st - 1)%Z).
    { symmetry. apply (Z.div_unique (M - 1) st (M / st - 1) (st - 1)); lia. }
    rewrite E. assert (Hk1 : (1 <= M / st)%Z) by nia.
    replace (S (Z.to_nat (M / st - 1))) with k by (unfold k; lia).
    replace (range_item config k) with (M - 1)%Z by lia. reflexivity.
Qed.

Lemma generate_explicit :
  let mid := List.map (range_item config) (List.seq 1 inner) in
  let last := (max_threshold config - 1)%Z in
  generate rgb2hex fl config
  = (List.flat_map (calls_of fl config) ((-1)%Z :: mid ++ [last]),
     Ok (with_comparator (lit "<=") (cond_of rgb2hex fl config (-1))
           :: List.map (cond_of rgb2hex fl config) mid
           ++ [with_comparator (lit ">=") (cond_of rgb2hex fl config last)])).
Proof.
  cbv zeta. unfold generate. rewrite steps_explicit. cbn [bind ret app].
  rewrite for_each_body by lia. cbn [bind ret app].
  cbn [seq List.map]. rewrite nth_step_0.
  rewrite map_app. cbn [List.map app].
  rewrite set_comparator_first. cbn [bind ret app].
  rewrite app_comm_cons, set_comparator_last. cbn [ret].
  now rewrite !app_nil_r.
Qed.

Lemma constants_explicit :
  List.map constant
    (with_comparator (lit "<=") (cond_of rgb2hex fl config (-1))
       :: List.map (cond_of rgb2hex fl config)
            (List.map (range_item config) (List.seq 1 inner))
       ++ [with_comparator (lit ">=") (cond_of rgb2hex fl config (max_threshold config - 1))])
  = List.map (fun i => (Z.of_nat i * PBarConfig.step_size config)%Z) (List.seq 0 (S inner))
      ++ [(PBarConfig.length config * 8)%Z].
Proof.
  cbn [List.map seq]. rewrite map_app, !map_map. cbn [List.map app].
  unfold with_comparator, cond_of. cbn [constant].
  change (-1 + 1)%Z with (Z.of_nat 0 * PBarConfig.step_size config)%Z.
  apply (f_equal (cons (Z.of_nat 0 * PBarConfig.step_size config)%Z)).
  replace (max_threshold config - 1 + 1)%Z with (PBarConfig.length config * 8)%Z
    by (unfold max_threshold; change divs with 8%Z; lia).
  apply (f_equal (fun l => l ++ [(PBarConfig.length config * 8)%Z])).
  apply map_ext. intros i. unfold range_item. lia.
Qed.

End Explicit.

Section Ends.

Variable color : Type.
Variable rgb2hex : color -> str.
Variable fl : Q -> Q.
Variable config : PBarConfig.t color.

Hypothesis fl_ok : rounding fl.
Hypothesis length_ok : (1 <= PBarConfig.length config)%Z.

Lemma number_of_first : number_of fl config (-1) = lit "0.0".
Proof.
  unfold number_of, format_1f, times100, quotient. cbn [negative magnitude].
  change (-1 + 1)%Z with 0%Z. cbn [Z.ltb Z.compare Z.abs].
  destruct (Z.ltb_spec (PBarConfig.length config * divs) 0);
    [change divs with 8%Z in *; lia|]. cbn [xorb app].
  set (p := Z.to_pos (Z.abs (PBarConfig.length config * divs))).
  assert (E0 : 0 # p == 0) by reflexivity.
  pose proof (fl_proper fl_ok E0) as E1. pose proof (fl_0 fl_ok) as F0.
  assert (E2 : fl (0 # p) * 100 == 0) by lra.
  pose proof (fl_proper fl_ok E2) as E3.
  assert (E4 : fl (fl (0 # p) * 100) * 10 == inject_Z 0) by (unfold inject_Z; lra).
  rewrite (round_half_even_integer E4). reflexivity.
Qed.

Lemma number_of_last : number_of fl config (max_threshold config - 1) = lit "100.0".
Proof.
  unfold number_of, max_threshold.
  replace (PBarConfig.length config * divs - 1 + 1)%Z
    with (PBarConfig.length config * divs)%Z by lia.
  assert (Hb : (0 < PBarConfig.length config * divs)%Z) by (change divs with 8%Z; lia).
  destruct (percentage_full fl_ok Hb) as [Hn Hm].
  unfold format_1f. rewrite Hn. cbn [app].
  set (x := times100 fl _) in *.
  assert (E : magnitude x * 10 == inject_Z 1000) by (unfold inject_Z; lra).
  rewrite (round_half_even_integer E). reflexivity.
Qed.

Lemma wrap_nil x : wrap rgb2hex config x [] = [].
Proof. unfold wrap. now destruct (PBarConfig.cmap config). Qed.

Lemma end_of_first :
  end_of fl config (-1)
  = List.repeat full_block (Z.to_nat (PBarConfig.length config)) ++ lit "00".
Proof.
  unfold end_of. rewrite fill_of_eq, number_of_first.
  unfold num_after_of, rep. cbn [Z.eqb]. change (Z.max (-1 / divs) 0) with 0%Z.
  now rewrite Z.sub_0_r.
Qed.

Lemma bar_of_last :
  bar_of (max_threshold config - 1)
  = List.repeat full_block (Z.to_nat (PBarConfig.length config)).
Proof.
  unfold bar_of, max_threshold, rep. change divs with 8%Z.
  destruct (Z.eqb_spec (PBarConfig.length config * 8 - 1) (-1)); [lia|].
  assert (Ed : ((PBarConfig.length config * 8 - 1) / 8 = PBarConfig.length config - 1)%Z).
  { symmetry. apply (Z.div_unique _ 8 _ 7); lia. }
  assert (Em : ((PBarConfig.length config * 8 - 1) mod 8 = 7)%Z).
  { symmetry. apply (Z.mod_unique _ 8 (PBarConfig.length config - 1) 7); lia. }
  rewrite Ed, Em, Z.max_l by lia.
  change (List.nth (Z.to_nat 7) substeps 0%N) with full_block.
  replace (Z.to_nat (PBarConfig.length config))
    with (Z.to_nat (PBarConfig.length config - 1) + 1)%nat by lia.
  now rewrite repeat_app.
Qed.

Lemma text_of_first :
  text_of rgb2hex fl config (-1)
  = PBarConfig.prefix config ++ lit "[font=technology-slot-level-font]"
      ++ wrap rgb2hex config (quotient fl 0 (PBarConfig.length config * 8 - 1))
           (List.repeat full_block (Z.to_nat (PBarConfig.length config)) ++ lit "00")
      ++ lit "[/font]  0.0%".
Proof.
  unfold text_of. rewrite strip_field_of, number_of_first, end_of_first.
  change (bar_of (-1)) with (@nil N). rewrite wrap_nil. cbn [app].
  reflexivity.
Qed.

Lemma text_of_last :
  text_of rgb2hex fl config (max_threshold config - 1)
  = PBarConfig.prefix config ++ lit "[font=technology-slot-level-font]"
      ++ wrap rgb2hex config
           (quotient fl (PBarConfig.length config * 8 - 1) (PBarConfig.length config * 8 - 1))
           (List.repeat full_block (Z.to_nat (PBarConfig.length config)))
      ++ lit "[/font]  100.0%".
Proof.
  unfold text_of. rewrite strip_field_of, number_of_last, bar_of_last.
  rewrite (end_of_last config fl_ok length_ok), wrap_nil, app_nil_r.
  reflexivity.
Qed.





End Ends.

(** X13. For [length >= 1] and [step_size >= 1] the thresholds are the
    multiples of [step_size] below [length * 8], from 0 on, followed by
    [length * 8]; every condition names the signal of the configuration, as
    its first signal and as its icon. *)
Theorem thresholds_are_the_multiples_of_the_step
  (color : Type) (rgb2hex : color -> str) (fl : Q -> Q) (config : PBarConfig.t color) :
  (1 <= PBarConfig.length config)%Z -> (1 <= PBarConfig.step_size config)%Z ->
  exists cs,
    generate_pbar_conditions rgb2hex fl config = Ok cs
    /\ List.map constant cs
       = List.map (fun i => (Z.of_nat i * PBarConfig.step_size config)%Z)
           (List.seq 0
              (S (Z.to_nat ((PBarConfig.length config * 8 - 1)
                            / PBarConfig.step_size config))))
         ++ [(PBarConfig.length config * 8)%Z]
    /\ Forall (fun c => first_signal c = PBarConfig.signal_name config
                        /\ icon c = PBarConfig.signal_name config) cs.
Proof.
  intros HL HS. pose proof (@generate_explicit _ rgb2hex fl config HL HS) as Hg. cbv zeta in Hg.
  eexists. split; [unfold generate_pbar_conditions; rewrite Hg; reflexivity|].
  split; [apply constants_explicit|].
  constructor; [split; reflexivity|]. apply Forall_app. split.
  - apply Forall_forall. intros c Hc. apply in_map_iff in Hc as (s & <- & _).
    split; reflexivity.
  - constructor; [split; reflexivity|constructor].
Qed.

Lemma thresholds_are_the_multiples_of_the_step_witness :
  exists cs,
    generate_pbar_conditions same exact (config_of [] None 2 3) = Ok cs
    /\ List.map constant cs = [0; 3; 6; 9; 12; 15; 16]%Z
    /\ Forall (fun c => first_signal c = lit "parameter-0"
                        /\ icon c = lit "parameter-0") cs.
Proof.
  apply (@thresholds_are_the_multiples_of_the_step str same exact (config_of [] None 2 3));
    simpl; lia.
Defined.

(** X14. The two ends of the bar, for [length >= 1] and [step_size >= 1]:
    the first text shows [length] full blocks and the filler ["00"] before
    ["0.0%"], the last text shows [length] full blocks before ["100.0%"];
    each group is in the colour of the mapper, if there is one. *)
Theorem texts_at_zero_and_at_full_progress
  (color : Type) (rgb2hex : color -> str) (fl : Q -> Q) (config : PBarConfig.t color) :
  rounding fl ->
  (1 <= PBarConfig.length config)%Z -> (1 <= PBarConfig.step_size config)%Z ->
  exists first middle last,
    generate_pbar_conditions rgb2hex fl config = Ok (first :: middle ++ [last])
    /\ text first
       = PBarConfig.prefix config ++ lit "[font=technology-slot-level-font]"
           ++ wrap rgb2hex config (quotient fl 0 (PBarConfig.length config * 8 - 1))
                (List.repeat full_block (Z.to_nat (PBarConfig.length config)) ++ lit "00")
           ++ lit "[/font]  0.0%"
    /\ text last
       = PBarConfig.prefix config ++ lit "[font=technology-slot-level-font]"
           ++ wrap rgb2hex config
                (quotient fl (PBarConfig.length config * 8 - 1)
                   (PBarConfig.length config * 8 - 1))
                (List.repeat full_block (Z.to_nat (PBarConfig.length config)))
           ++ lit "[/font]  100.0%".
Proof.
  intros Hfl HL HS. pose proof (@generate_explicit _ rgb2hex fl config HL HS) as Hg. cbv zeta in Hg.
  do 3 eexists. split; [unfold generate_pbar_conditions; rewrite Hg; reflexivity|].
  cbn [with_comparator cond_of text]. split.
  - now apply text_of_first.
  - now apply text_of_last.
Qed.

Lemma texts_at_zero_and_at_full_progress_witness :
  exists first middle last,
    generate_pbar_conditions same exact (config_of [] (const_color (lit "#8e1dcc")) 2 1)
    = Ok (first :: middle ++ [last])
    /\ text first
       = lit "[font=technology-slot-level-font][color=#8e1dcc]"
           ++ [9608; 9608]%N ++ lit "00[/color][/font]  0.0%"
    /\ text last
       = lit "[font=technology-slot-level-font][color=#8e1dcc]"
           ++ [9608; 9608]%N ++ lit "[/color][/font]  100.0%".
Proof.
  apply (@texts_at_zero_and_at_full_progress str same exact
           (config_of [] (const_color (lit "#8e1dcc")) 2 1) rounding_exact);
    simpl; lia.
Defined.



End GeneratorExtras.

(** * The blueprint *)

Module BlueprintExtras.

Import Progress ProgressTheory Blueprint.

Section Assembled.

Variable color : Type.
Variable rgb2hex : color -> str.
Variable fl : Q -> Q.

Lemma float_of_int_ok x :
  (Z.abs x < float_limit)%Z -> exists f, float_of_int fl x = Done f.
Proof.
  intros H. unfold float_of_int.
  destruct (Z.ltb_spec (Z.abs x) float_limit); [eauto|lia].
Qed.

Lemma add_half_ok x : (Z.abs x < float_limit)%Z -> exists f, add_half fl x = Done f.
Proof.
  intros H. unfold add_half. destruct (@float_of_int_ok x H) as [f ->]. eauto.
Qed.

Lemma generate_pbar_entity_spec config i e :
  generate_pbar_entity rgb2hex fl config i = Done e -> panel_of rgb2hex fl config i e.
Proof.
  unfold generate_pbar_entity, panel_of.
  destruct (generate_pbar_conditions rgb2hex fl config) as [cs|]; [|discriminate].
  destruct (add_half fl (fst (PBarConfig.position config))); [|discriminate].
  destruct (add_half fl (snd (PBarConfig.position config))); [|discriminate].
  intros H. injection H as <-. cbn. repeat split.
Qed.

Lemma generate_pbar_entity_valid config i :
  valid config -> exists e, generate_pbar_entity rgb2hex fl config i = Done e.
Proof.
  intros (HL & HS & Hx & Hy). unfold generate_pbar_entity, generate_pbar_conditions.
  destruct (@generate_valid _ rgb2hex fl config HL HS) as (j & Hg & _). cbv zeta in Hg.
  rewrite Hg. cbn [snd].
  destruct (@add_half_ok _ Hx) as [x ->]. destruct (@add_half_ok _ Hy) as [y ->]. eauto.
Qed.

Lemma generate_pbar_entity_raises config i e :
  generate_pbar_conditions rgb2hex fl config = Raise e ->
  generate_pbar_entity rgb2hex fl config i = Failed (Raised e).
Proof. intros H. unfold generate_pbar_entity. now rewrite H. Qed.

Lemma loop_spec : forall l i es ps es' ps',
  loop rgb2hex fl i l es ps = Done (es', ps') ->
  exists new,
    es' = es ++ new
    /\ ps' = ps ++ named l
    /\ List.length new = List.length l
    /\ (forall k c, List.nth_error l k = Some c ->
          exists e, List.nth_error new k = Some e
                    /\ panel_of rgb2hex fl c (i + Z.of_nat k) e).
Proof.
  induction l as [|c l IH]; intros i es ps es' ps' H; cbn [loop] in H.
  - injection H as <- <-. exists []. rewrite !app_nil_r. repeat split.
    intros [|k] c Hc; discriminate.
  - destruct (generate_pbar_entity rgb2hex fl c i) as [e|] eqn:E; [|discriminate].
    apply IH in H as (new & -> & -> & Hn & Hf).
    apply generate_pbar_entity_spec in E.
    exists (e :: new). split; [now rewrite <- app_assoc|]. split; [|split].
    + unfold named. cbn [List.map filter].
      destruct (occurs (lit "parameter") (PBarConfig.signal_name c));
        cbn [List.map]; now rewrite <- ?app_assoc, ?app_nil_r.
    + cbn [List.length]. now rewrite Hn.
    + intros [|k] c' Hc'; cbn [nth_error] in *.
      * injection Hc' as <-. exists e. split; [reflexivity|].
        now rewrite Z.add_0_r.
      * destruct (Hf k c' Hc') as (e' & He' & Hp). exists e'. split; [assumption|].
        replace (i + Z.of_nat (S k))%Z with (i + 1 + Z.of_nat k)%Z by lia. assumption.
Qed.

Lemma loop_valid : forall l i es ps,
  Forall valid l -> exists r, loop rgb2hex fl i l es ps = Done r.
Proof.
  induction l as [|c l IH]; intros i es ps H; cbn [loop]; [eauto|].
  inversion H as [|? ? Hc Hcs]; subst.
  destruct (generate_pbar_entity_valid i Hc) as [e ->]. now apply IH.
Qed.

Lemma loop_raises : forall before i es ps c after e,
  Forall valid before ->
  generate_pbar_conditions rgb2hex fl c = Raise e ->
  loop rgb2hex fl i (before ++ c :: after) es ps = Failed (Raised e).
Proof.
  induction before as [|b before IH]; intros i es ps c after e H Hc; cbn [app loop].
  - now rewrite (generate_pbar_entity_raises _ i Hc).
  - inversion H as [|? ? Hb Hbs]; subst.
    destruct (generate_pbar_entity_valid i Hb) as [x ->]. now apply IH.
Qed.

End Assembled.

(** Solves [valid] for a concrete configuration. *)
Ltac usable :=
  split; [simpl; lia|split; [simpl; lia|split; vm_compute; reflexivity]].

(** X16. A blueprint has one display panel for each configuration, in the
    order of the configurations and numbered from 1: the panel of the
    configuration at index [k] has the number [k + 1], the conditions
    generated for that configuration and its signal for an icon. *)
Theorem blueprint_has_one_panel_per_configuration
  (color : Type) (rgb2hex : color -> str) (fl : Q -> Q)
  (l : list (PBarConfig.t color)) (b : Blueprint.t) :
  bp_json rgb2hex fl l = Done b ->
  List.length (entities b) = List.length l
  /\ (forall k c, List.nth_error l k = Some c ->
        exists e, List.nth_error (entities b) k = Some e
                  /\ panel_of rgb2hex fl c (Z.of_nat k + 1) e).
Proof.
  unfold bp_json. destruct (loop rgb2hex fl 1 l [] []) as [[es ps]|] eqn:E; [|discriminate].
  intros H. injection H as <-. cbn [entities].
  apply loop_spec in E as (new & -> & _ & Hn & Hf). cbn [app].
  split; [assumption|]. intros k c Hc. destruct (Hf k c Hc) as (e & He & Hp).
  exists e. split; [assumption|]. now rewrite Z.add_comm.
Qed.

Lemma blueprint_has_one_panel_per_configuration_witness :
  exists b,
    bp_json same exact [config_of [] None 1 8; config_of [] None 2 8] = Done b
    /\ List.length (entities b) = 2%nat
    /\ (forall k c,
          List.nth_error [config_of [] None 1 8; config_of [] None 2 8] k = Some c ->
          exists e, List.nth_error (entities b) k = Some e
                    /\ panel_of same exact c (Z.of_nat k + 1) e).
Proof.
  eexists. split; [vm_compute; reflexivity|].
  apply (@blueprint_has_one_panel_per_configuration str same exact
           [config_of [] None 1 8; config_of [] None 2 8]).
  vm_compute. reflexivity.
Defined.

(** X17. The parameters of a blueprint are the signal names that contain
    ["parameter"], each under the type ["id"], in the order of the
    configurations; a name that occurs twice is listed twice. *)
Theorem blueprint_parameters_are_the_parameter_signals
  (color : Type) (rgb2hex : color -> str) (fl : Q -> Q)
  (l : list (PBarConfig.t color)) (b : Blueprint.t) :
  bp_json rgb2hex fl l = Done b ->
  Blueprint.parameters b
  = List.map (fun s => (lit "id", s))
      (List.filter (occurs (lit "parameter"))
         (List.map (fun c => PBarConfig.signal_name c) l)).
Proof.
  unfold bp_json. destruct (loop rgb2hex fl 1 l [] []) as [[es ps]|] eqn:E; [|discriminate].
  intros H. injection H as <-. cbn [Blueprint.parameters].
  now apply loop_spec in E as (new & _ & -> & _).
Qed.

Lemma blueprint_parameters_are_the_parameter_signals_witness :
  exists b,
    bp_json same exact
      [config_of [] None 1 8;
       PBarConfig.Make (0, 2)%Z (lit "space-science-pack") [] None 1 8;
       config_of [] None 2 8] = Done b
    /\ Blueprint.parameters b
       = [(lit "id", lit "parameter-0"); (lit "id", lit "parameter-0")].
Proof.
  eexists. split; [vm_compute; reflexivity|].
  apply (@blueprint_parameters_are_the_parameter_signals str same exact
           [config_of [] None 1 8;
            PBarConfig.Make (0, 2)%Z (lit "space-science-pack") [] None 1 8;
            config_of [] None 2 8]).
  vm_compute. reflexivity.
Defined.

(** X18. Configurations with a length and a step size of at least 1, at
    positions that convert to [float], always give a blueprint string: the
    version byte ["0"] and the encoded JSON of the blueprint. *)
Theorem valid_configurations_give_a_blueprint
  (color : Type) (rgb2hex : color -> str) (fl : Q -> Q)
  (dumps : Blueprint.t -> str) (encode : str -> list N)
  (compress b64encode : list N -> list N) (decode : list N -> str)
  (l : list (PBarConfig.t color)) :
  Forall valid l ->
  exists b,
    bp_json rgb2hex fl l = Done b
    /\ generate_bp_string rgb2hex fl dumps encode compress b64encode decode l
       = Done (lit "0" ++ decode (b64encode (compress (encode (dumps b))))).
Proof.
  intros H. unfold generate_bp_string, bp_json.
  destruct (@loop_valid _ rgb2hex fl l 1 [] [] H) as [[es ps] ->].
  eexists. split; reflexivity.
Qed.

Lemma valid_configurations_give_a_blueprint_witness :
  exists b,
    bp_json same exact configs = Done b
    /\ generate_bp_string same exact (fun _ => []) (fun s => s) (fun s => s) (fun s => s)
         (fun s => s) configs
       = Done (lit "0" ++ []).
Proof.
  apply (@valid_configurations_give_a_blueprint str same exact
           (fun _ => []) (fun s => s) (fun s => s) (fun s => s) (fun s => s) configs).
  unfold configs, colors. cbn [List.map List.combine List.seq List.length].
  repeat (apply Forall_cons; [usable|]). apply Forall_nil.
Defined.

(** X19. The first configuration that cannot be generated stops the
    blueprint: after usable configurations, an exception of
    [generate_pbar_conditions] is the exception of [generate_bp_string],
    whatever follows. *)
Theorem blueprint_stops_at_the_first_failure
  (color : Type) (rgb2hex : color -> str) (fl : Q -> Q)
  (dumps : Blueprint.t -> str) (encode : str -> list N)
  (compress b64encode : list N -> list N) (decode : list N -> str)
  (before after : list (PBarConfig.t color)) (c : PBarConfig.t color) (e : exn) :
  Forall valid before ->
  generate_pbar_conditions rgb2hex fl c = Raise e ->
  generate_bp_string rgb2hex fl dumps encode compress b64encode decode
    (before ++ c :: after)
  = Failed (Raised e).
Proof.
  intros H Hc. unfold generate_bp_string, bp_json.
  now rewrite (@loop_raises _ rgb2hex fl before 1 [] [] c after e H Hc).
Qed.

Lemma blueprint_stops_at_the_first_failure_witness :
  generate_bp_string same exact (fun _ => []) (fun s => s) (fun s => s) (fun s => s)
    (fun s => s)
    ([config_of [] None 10 1] ++ config_of [] None 10 0 :: [config_of [] None 10 1])
  = Failed (Raised ValueError).
Proof.
  apply blueprint_stops_at_the_first_failure.
  - apply Forall_cons; [usable|apply Forall_nil].
  - reflexivity.
Defined.


End BlueprintExtras.

(** * [linspace] *)

Module LinspaceExtras.

Import Linspace.

Lemma for_each_length {A B} (f : A -> outcome B) : forall l,
  (forall a, In a l -> exists b, f a = Done b) ->
  exists bs, for_each l f = Done bs /\ List.length bs = List.length l.
Proof.
  induction l as [|a l IH]; intros H; cbn [for_each]; [now exists []|].
  destruct (H a) as [b ->]; [now left|].
  destruct IH as (bs & -> & Hl); [intros x Hx; apply H; now right|].
  exists (b :: bs). cbn [List.length]. now rewrite Hl.
Qed.

Lemma linspace_values
  (F : Type) (sub add mul div : F -> F -> F) (of_int : Z -> option F)
  (start stop : F) (num : Z) :
  num <> 1%Z ->
  (forall i, (Z.abs i <= Z.abs (num - 1))%Z -> of_int i <> None) ->
  exists l,
    linspace sub add mul div of_int start stop num = Done l
    /\ List.length l = Z.to_nat num.
Proof.
  intros Hn Hc. unfold linspace, truediv, float.
  destruct (Z.eqb_spec (num - 1)%Z 0%Z); [lia|].
  destruct (of_int (num - 1)%Z) as [y|] eqn:Ey; [|now destruct (Hc (num - 1)%Z ltac:(lia))].
  destruct (for_each_length
              (fun i => match match of_int i with
                              | Some f => Done f
                              | None => Failed OverflowError
                              end with
                        | Failed e => Failed e
                        | Done i0 => Done (add start (mul (div (sub stop start) y) i0))
                        end)
              (Sampling.range num)) as (l & -> & Hl).
  - intros i Hi. unfold Sampling.range in Hi. apply in_map_iff in Hi as (k & <- & Hk).
    apply in_seq in Hk.
    destruct (of_int (Z.of_nat k)) as [f|] eqn:Ef; [eauto|].
    now destruct (Hc (Z.of_nat k) ltac:(lia)).
  - exists l. split; [reflexivity|].
    rewrite Hl. unfold Sampling.range. now rewrite length_map, length_seq.
Qed.

(** X20. Where the integers up to [num - 1] convert to [float], [linspace]
    fails exactly for [num = 1], with [ZeroDivisionError] from the step
    [(stop - start) / (num - 1)]; for every other [num] it returns [num]
    values, none for [num <= 0]. *)
Theorem linspace_fails_exactly_for_one_point
  (F : Type) (sub add mul div : F -> F -> F) (of_int : Z -> option F)
  (start stop : F) (num : Z) :
  (forall i, (Z.abs i <= Z.abs (num - 1))%Z -> of_int i <> None) ->
  match linspace sub add mul div of_int start stop num with
  | Failed e => num = 1%Z /\ e = Raised ZeroDivisionError
  | Done l => num <> 1%Z /\ List.length l = Z.to_nat num
  end.
Proof.
  intros Hc. destruct (Z.eq_dec num 1) as [->|Hn].
  - cbn. split; reflexivity.
  - destruct (@linspace_values F sub add mul div of_int start stop num Hn Hc)
      as (l & -> & Hl).
    split; assumption.
Qed.

Lemma linspace_fails_exactly_for_one_point_witness :
  match linspace Qminus Qplus Qmult Qdiv (fun i => Some (inject_Z i)) 0 1 5 with
  | Failed e => 5%Z = 1%Z /\ e = Raised ZeroDivisionError
  | Done l => 5%Z <> 1%Z /\ List.length l = 5%nat
  end.
Proof.
  apply (@linspace_fails_exactly_for_one_point Q Qminus Qplus Qmult Qdiv
           (fun i => Some (inject_Z i)) 0 1 5).
  intros i _. discriminate.
Defined.

End LinspaceExtras.

(** * Sampling the generated conditions *)

Module SampledConditions.

Import Progress ProgressTheory Sampling.

Lemma last_of_map_some {A} (f : nat -> option A) (d : A) : forall (l : list A) (indices : list nat),
  l <> [] -> List.map Some l = List.map f indices ->
  Some (List.last l d) = f (List.last indices 0%nat).
Proof.
  induction l as [|a l IH]; intros indices Hl H; [congruence|].
  destruct indices as [|i indices]; [discriminate|]. cbn [List.map] in H.
  injection H as Ha H. destruct l as [|b l].
  - destruct indices; [assumption|discriminate].
  - destruct indices as [|j indices]; [discriminate|].
    apply (IH (j :: indices)); [discriminate|assumption].
Qed.

Lemma nth_error_last {A} (d : A) (data : list A) :
  data <> [] -> List.nth_error data (List.length data - 1) = Some (List.last data d).
Proof.
  intros H. destruct (exists_last H) as (l & x & ->).
  rewrite last_last, length_app. cbn [List.length].
  replace (List.length l + 1 - 1)%nat with (List.length l) by lia.
  rewrite nth_error_app2, Nat.sub_diag by lia. reflexivity.
Qed.

(** Two samples or more keep both ends of a list of two items or more. *)
Lemma sample_ends (A : Type) (fl : Q -> Q) (data : list A) (k : Z) (d : A) :
  rounding fl ->
  fl (inject_Z (Z.of_nat (List.length data) - 1))
    == inject_Z (Z.of_nat (List.length data) - 1) ->
  (2 <= k)%Z -> (2 <= List.length data)%nat ->
  exists l,
    sample_evenly_interpolated fl data k = Ok l
    /\ List.hd_error l = List.hd_error data
    /\ List.last l d = List.last data d.
Proof.
  intros Hfl Hlast Hk Hd.
  destruct (Z_le_gt_dec (Z.of_nat (List.length data)) k) as [Hall|Hfew].
  { exists data. split; [apply SamplingExtras.sample_all; lia|]. split; reflexivity. }
  destruct (@SamplingExtras.sample_between A fl data k Hfl Hlast ltac:(lia))
    as (l & indices & Hs & Hlen & Hmap & Hhd & Hla & _).
  exists l. split; [assumption|].
  assert (Hl : l <> []) by (destruct l; [cbn in Hlen; lia|discriminate]).
  split.
  - destruct l as [|a l]; [congruence|]. destruct indices as [|i indices]; [discriminate|].
    cbn [hd_error] in Hhd. injection Hhd as ->. cbn [List.map] in Hmap.
    injection Hmap as Ha _. cbn [hd_error]. rewrite Ha. now destruct data.
  - pose proof (@last_of_map_some _ (List.nth_error data) d l indices Hl Hmap) as E.
    rewrite Hla, (nth_error_last d) in E by (destruct data; [cbn in Hd; lia|discriminate]).
    now injection E.
Qed.

(** X21. What the test of the generator prints: for [length >= 1],
    [step_size >= 1] and two samples or more, the samples of the generated
    conditions start with the zero-progress condition (threshold 0 under
    ["<="]) and end with the last one (threshold [length * 8] under
    [">="]). *)
Theorem sampled_conditions_keep_both_ends
  (color : Type) (rgb2hex : color -> str) (fl : Q -> Q) (config : PBarConfig.t color)
  (k : Z) :
  rounding fl ->
  (forall m, (0 <= m <= PBarConfig.length config * 8)%Z -> fl (inject_Z m) == inject_Z m) ->
  (1 <= PBarConfig.length config)%Z -> (1 <= PBarConfig.step_size config)%Z ->
  (2 <= k)%Z ->
  exists cs l first last,
    generate_pbar_conditions rgb2hex fl config = Ok cs
    /\ sample_evenly_interpolated fl cs k = Ok l
    /\ List.hd_error l = Some first /\ List.last l first = last
    /\ constant first = 0%Z /\ comparator first = lit "<="
    /\ constant last = (PBarConfig.length config * 8)%Z /\ comparator last = lit ">=".
Proof.
  intros Hfl Hint HL HS Hk.
  pose proof (@GeneratorExtras.generate_explicit _ rgb2hex fl config HL HS) as Hg.
  cbv zeta in Hg.
  set (first := with_comparator (lit "<=") (cond_of rgb2hex fl config (-1))) in *.
  set (last := with_comparator (lit ">=")
                 (cond_of rgb2hex fl config (max_threshold config - 1))) in *.
  set (mid := List.map (cond_of rgb2hex fl config) _) in *.
  assert (Hn : List.length (first :: mid ++ [last])
               = S (S (Z.to_nat ((max_threshold config - 1)
                                 / PBarConfig.step_size config)))).
  { cbn [List.length]. rewrite length_app. unfold mid.
    rewrite !length_map, length_seq. cbn [List.length]. lia. }
  assert (Hq : (0 <= (max_threshold config - 1) / PBarConfig.step_size config
                <= max_threshold config - 1)%Z).
  { unfold max_threshold. change divs with 8%Z. split.
    - apply Z.div_pos; lia.
    - apply Z.div_le_upper_bound; nia. }
  destruct (@sample_ends _ fl (first :: mid ++ [last]) k first Hfl) as (l & Hs & Hh & Hl).
  - rewrite Hn. apply Hint. unfold max_threshold in *. change divs with 8%Z in *. lia.
  - assumption.
  - rewrite Hn. lia.
  - exists (first :: mid ++ [last]), l, first, last.
    split; [unfold generate_pbar_conditions; now rewrite Hg|].
    split; [assumption|]. split; [assumption|].
    split; [rewrite Hl; now rewrite app_comm_cons, last_last|].
    repeat split. unfold last, max_threshold. cbn [with_comparator cond_of constant].
    change divs with 8%Z. lia.
Qed.

Lemma sampled_conditions_keep_both_ends_witness :
  exists cs l first last,
    generate_pbar_conditions same exact test_config = Ok cs
    /\ sample_evenly_interpolated exact cs 5 = Ok l
    /\ List.hd_error l = Some first /\ List.last l first = last
    /\ constant first = 0%Z /\ comparator first = lit "<="
    /\ constant last = (10 * 8)%Z /\ comparator last = lit ">=".
Proof.
  apply (@sampled_conditions_keep_both_ends str same exact test_config 5 rounding_exact).
  - intros m _. reflexivity.
  - simpl. lia.
  - simpl. lia.
  - lia.
Defined.

End SampledConditions.
